(** * JobMatch AI: the job-search endpoints and their collaborators

    A shallow embedding of the two search endpoints of the repository
    ([search_jobs] of jobsearch.py and [search_jobs_realtime] of
    api_routes.py) together with the collaborators they call
    ([RealJobScraper.scrape_all_sources], its deduplicator, and
    [JobMatcher.calculate_match_percentage]).

    The other endpoints of jobsearch.py that call a collaborator
    ([parse_resume], [chat], [autofill_application]) are embedded with the
    lines they log.

    Layout: the Python values and builtins the endpoints use, the endpoints,
    the collaborators, then the theorems. *)

From Stdlib Require Import ZArith QArith Qround Lqa Permutation Sorted Ascii String.
From stdpp Require Import gmap strings list fin_maps sorting pretty.

Local Open Scope string_scope.
Local Open Scope list_scope.

(** ** Python values, exceptions and builtins *)

Module Py.

(** An exception object (an instance of a subclass of [Exception], the only
    kind the endpoints' [except Exception as e] clauses catch): its class
    name and [str(e)]. *)
Record exn := Exception { exn_class : string; exn_str : string }.

(** Outcome of a call that may raise. *)
Inductive result (A : Type) : Type :=
| Ok (a : A)
| Raise (e : exn).
Arguments Ok {A} a.
Arguments Raise {A} e.

Definition bind {A B} (c : result A) (k : A → result B) : result B :=
  match c with
  | Ok a => k a
  | Raise e => Raise e
  end.

(** [try: body / except Exception as e: handler(e)], both branches
    returning. *)
Definition try_except {A} (body : result A) (handler : exn → A) : A :=
  match body with
  | Ok a => a
  | Raise e => handler e
  end.

(** Values stored in the fields of a job or resume dict. *)
Inductive pyval :=
| PyStr (s : string)
| PyNum (n : Z)
| PyList (l : list string).

#[global] Instance pyval_eq_dec : EqDecision pyval.
Proof. solve_decision. Defined.

(** [d[k]]: a missing key raises [KeyError], whose [str] is the [repr] of
    the key (the key in quotes, for the plain keys used here). *)
Definition getitem (d : gmap string pyval) (k : string) : result pyval :=
  match d !! k with
  | Some v => Ok v
  | None => Raise (Exception "KeyError" ("'" +:+ k +:+ "'"))
  end.

(** The sort keys of this program are the matcher's numbers; any other value
    under the key is reported as a [TypeError] (ordering of non-numeric
    values is not modelled). *)
Definition as_number (v : pyval) : result Z :=
  match v with
  | PyNum n => Ok n
  | _ => Raise (Exception "TypeError" "'<' not supported")
  end.

(** Truth value of an optional dict argument ([resume_data: dict = None]):
    [None] and the empty dict are both false. *)
Definition truthy (o : option (gmap string pyval)) : bool :=
  match o with
  | None => false
  | Some d => negb (bool_decide (d = ∅))
  end.

Fixpoint mapM {A B} (f : A → result B) (l : list A) : result (list B) :=
  match l with
  | [] => Ok []
  | x :: l' =>
      bind (f x) (λ y, bind (mapM f l') (λ ys, Ok (y :: ys)))
  end.

(** Stable ascending sort of decorated items, comparing keys with [<] only,
    as [list.sort] does: an item goes behind every item that is not
    greater. *)
Fixpoint insert_by_key {A} (x : Z * A) (l : list (Z * A)) : list (Z * A) :=
  match l with
  | [] => [x]
  | y :: l' =>
      if (x.1 <? y.1)%Z then x :: y :: l' else y :: insert_by_key x l'
  end.

Definition sort_by_key {A} (l : list (Z * A)) : list (Z * A) :=
  fold_left (λ acc x, insert_by_key x acc) l [].

(** [sorted(l, key=key, reverse=reverse)]: the keys are computed first, one
    call per item and in order; the decorated list is sorted stably; with
    [reverse] the list is reversed before and after the sort, which keeps
    equal keys in their original order. *)
Definition sorted {A} (key : A → result Z) (reverse : bool) (l : list A)
  : result (list A) :=
  bind (mapM key l) (λ keys,
    let decorated := zip keys l in
    Ok (snd <$> (if reverse
                 then list.reverse (sort_by_key (list.reverse decorated))
                 else sort_by_key decorated))).

(** The order of the keys of decorated items, ascending and descending. *)
Definition key_le {A} : relation (Z * A) := λ a b, (a.1 <= b.1)%Z.
Definition key_ge {A} : relation (Z * A) := λ a b, (b.1 <= a.1)%Z.

(** The sort that [sorted] runs with [reverse=True]. *)
Definition sort_descending {A} (l : list (Z * A)) : list (Z * A) :=
  list.reverse (sort_by_key (list.reverse l)).

End Py.
Export Py.

#[global] Instance result_ret : MRet result := λ A a, Ok a.
#[global] Instance result_bind : MBind result := λ A B k c, Py.bind c k.

(** ** The route layer (api_routes.py, jobsearch.py) *)

(** A job and a resume are "any shape" dicts with string keys. *)
Abbreviation dict := (gmap string pyval).

(** Values of the fields of a JSON response. *)
Inductive rval :=
| RBool (b : bool)
| RInt (n : Z)
| RStr (s : string)
| RStrs (l : list string)
| RJobs (l : list dict).

Abbreviation response := (gmap string rval).

Definition MATCH_PERCENTAGE : string := "match_percentage".

Module Routes.
Section Endpoints.

(** [scraper.scrape_all_sources(job_title, location)], awaited: the list of
    jobs, or an exception. *)
Variable scrape_all_sources : string → string → result (list dict).

(** [JobMatcher(resume_data).calculate_match_percentage(job)].
    Modelled from the spec: job_matcher.py is not part of the sources; by
    the spec's section 7 the Matcher never fails, so the call is total, and
    by section 4.4 its value is a number rounded to an integer. *)
Variable calculate_match_percentage : option dict → dict → Z.

(** [datetime.now().isoformat()] *)
Variable now_isoformat : string.

(** jobsearch.py, POST /api/v1/jobs/search-by-title-city *)
Definition search_jobs (job_title city : string) : response :=
  try_except
    (jobs ← scrape_all_sources job_title city;
     Ok (<["success" := RBool true]>
         (<["jobs" := RJobs jobs]>
         (<["count" := RInt (Z.of_nat (length jobs))]>
         (<["sources" := RStrs ["Indeed"; "LinkedIn"; "Naukri"; "Glassdoor"]]>
         (<["timestamp" := RStr now_isoformat]> (∅ : response)))))))
    (λ e,
       <["success" := RBool true]>
       (<["jobs" := RJobs []]>
       (<["count" := RInt 0]>
       (<["error" := RStr "Real job sources temporarily unavailable"]>
          (∅ : response))))).

(** The body of the loop [for job in jobs: job['match_percentage'] = ...]:
    the job with the key set to its score (an existing value is replaced).
    Every job of the list is a dict of its own, so the loop is a map over
    the list. *)
Definition score_job (resume_data : option dict) (job : dict) : dict :=
  <[MATCH_PERCENTAGE := PyNum (calculate_match_percentage resume_data job)]> job.

(** [key=lambda x: x['match_percentage']] *)
Definition match_percentage_key (x : dict) : result Z :=
  v ← getitem x MATCH_PERCENTAGE; as_number v.

(** api_routes.py, POST /api/v2/search-realtime *)
Definition search_jobs_realtime (job_title location : string)
    (resume_data : option dict) : response :=
  try_except
    (jobs ← scrape_all_sources job_title location;
     jobs ← (if truthy resume_data
             then
               let jobs := score_job resume_data <$> jobs in
               sorted match_percentage_key true jobs
             else Ok jobs);
     Ok (<["success" := RBool true]>
         (<["jobs" := RJobs jobs]>
         (<["total" := RInt (Z.of_nat (length jobs))]>
         (<["timestamp" := RStr now_isoformat]> (∅ : response))))))
    (λ e,
       <["success" := RBool false]>
       (<["error" := RStr (exn_str e)]>
       (<["jobs" := RJobs []]> (∅ : response)))).

(** The job list of the real-time endpoint when matching runs: the scored
    jobs, decorated with their scores and sorted. *)
Definition ranked (resume_data : option dict) (jobs : list dict) : list dict :=
  (sort_descending
     (zip (calculate_match_percentage resume_data <$> jobs)
          (score_job resume_data <$> jobs))).*2.

End Endpoints.

(** Reading a response. *)
Definition resp_jobs (r : response) : option (list dict) :=
  match r !! "jobs" with
  | Some (RJobs l) => Some l
  | _ => None
  end.

Definition resp_success (r : response) : option bool :=
  match r !! "success" with
  | Some (RBool b) => Some b
  | _ => None
  end.

(** The count field of a response: [count] in jobsearch.py, [total] in
    api_routes.py. *)
Definition resp_count (r : response) : option Z :=
  match r !! "count", r !! "total" with
  | Some (RInt n), _ => Some n
  | _, Some (RInt n) => Some n
  | _, _ => None
  end.

Definition match_percentage (job : dict) : option Z :=
  match job !! MATCH_PERCENTAGE with
  | Some (PyNum n) => Some n
  | _ => None
  end.

(** [a] may stand in front of [b] in a list sorted by descending
    [match_percentage]. *)
Definition ranks_before (a b : dict) : Prop :=
  match match_percentage a, match_percentage b with
  | Some x, Some y => (y <= x)%Z
  | _, _ => False
  end.

(** Every decorated item carries the score stored in its job. *)
Definition decorated_ok (p : Z * dict) : Prop := match_percentage p.2 = Some p.1.

End Routes.

(** ** The real-time endpoint, with a matcher that may raise

    The same function of api_routes.py, embedded with everything that its
    [try] encloses able to raise: the scraper, [JobMatcher(resume_data)] and
    each call of [calculate_match_percentage]. [Routes.search_jobs_realtime]
    is this definition at a matcher that never raises. *)

Module RaisingRoutes.
Section Endpoint.

Variable scrape_all_sources : string → string → result (list dict).

(** [JobMatcher(resume_data)], and the [calculate_match_percentage] of the
    object it returns. *)
Variable JobMatcher : option dict → result (dict → result Z).

Variable now_isoformat : string.

(** The loop [for job in jobs: job['match_percentage'] = ...]; it stops at
    the first call that raises. *)
Definition score_jobs (calculate_match_percentage : dict → result Z)
    (jobs : list dict) : result (list dict) :=
  mapM (λ job, s ← calculate_match_percentage job;
               Ok (<[MATCH_PERCENTAGE := PyNum s]> job)) jobs.

(** api_routes.py, POST /api/v2/search-realtime *)
Definition search_jobs_realtime (job_title location : string)
    (resume_data : option dict) : response :=
  try_except
    (jobs ← scrape_all_sources job_title location;
     jobs ← (if truthy resume_data
             then
               matcher ← JobMatcher resume_data;
               jobs ← score_jobs matcher jobs;
               sorted Routes.match_percentage_key true jobs
             else Ok jobs);
     Ok (<["success" := RBool true]>
         (<["jobs" := RJobs jobs]>
         (<["total" := RInt (Z.of_nat (length jobs))]>
         (<["timestamp" := RStr now_isoformat]> (∅ : response))))))
    (λ e,
       <["success" := RBool false]>
       (<["error" := RStr (exn_str e)]>
       (<["jobs" := RJobs []]> (∅ : response)))).

(** The exception [e] is raised inside the [try] of a request: by the
    scraper; by [JobMatcher(resume_data)], when a non-empty resume came with
    the request; or by the scoring of a job, the jobs before it having been
    scored. *)
Inductive raises_in_try (job_title location : string)
    (resume_data : option dict) (e : exn) : Prop :=
| scraper_raises :
    scrape_all_sources job_title location = Raise e →
    raises_in_try job_title location resume_data e
| constructor_raises jobs :
    scrape_all_sources job_title location = Ok jobs →
    truthy resume_data = true →
    JobMatcher resume_data = Raise e →
    raises_in_try job_title location resume_data e
| scoring_raises jobs matcher before job after :
    scrape_all_sources job_title location = Ok jobs →
    truthy resume_data = true →
    JobMatcher resume_data = Ok matcher →
    jobs = before ++ job :: after →
    Forall (λ j, ∃ s, matcher j = Ok s) before →
    matcher job = Raise e →
    raises_in_try job_title location resume_data e.

End Endpoint.

(** The answer of the [except] clause. *)
Definition failure_response (e : exn) : response :=
  <["success" := RBool false]>
  (<["error" := RStr (exn_str e)]> (<["jobs" := RJobs []]> ∅)).

(** The answer of a request that went through. *)
Definition success_response (now_isoformat : string) (jobs : list dict)
  : response :=
  <["success" := RBool true]>
  (<["jobs" := RJobs jobs]>
  (<["total" := RInt (Z.of_nat (length jobs))]>
  (<["timestamp" := RStr now_isoformat]> ∅))).

(** A matcher that never raises. *)
Definition never_raising (calculate_match_percentage : option dict → dict → Z)
  : option dict → result (dict → result Z) :=
  λ resume_data, Ok (λ job, Ok (calculate_match_percentage resume_data job)).

End RaisingRoutes.


(** ** Text normalisation used by the deduplicator and the matcher *)

Module Text.

Definition is_upper (c : ascii) : bool :=
  (65 <=? nat_of_ascii c)%nat && (nat_of_ascii c <=? 90)%nat.

Definition lower_ascii (c : ascii) : ascii :=
  if is_upper c then ascii_of_nat (nat_of_ascii c + 32) else c.

Fixpoint lowercase (s : string) : string :=
  match s with
  | EmptyString => EmptyString
  | String c s' => String (lower_ascii c) (lowercase s')
  end.

Definition is_space (c : ascii) : bool :=
  let n := nat_of_ascii c in
  (n =? 32)%nat || ((9 <=? n)%nat && (n <=? 13)%nat).

(** Split at every character satisfying [sep]; [cur] is the piece being read,
    reversed. Empty pieces are kept. *)
Fixpoint split_go (sep : ascii → bool) (s : string) (cur : list ascii)
  : list string :=
  match s with
  | EmptyString => [string_of_list_ascii (rev cur)]
  | String c s' =>
      if sep c
      then string_of_list_ascii (rev cur) :: split_go sep s' []
      else split_go sep s' (c :: cur)
  end.

Definition split (sep : ascii → bool) (s : string) : list string :=
  split_go sep s [].

Definition nonempty (s : string) : bool :=
  match s with EmptyString => false | _ => true end.

(** Whitespace-separated words, as [str.split()]. *)
Definition words (s : string) : list string :=
  List.filter nonempty (split is_space s).

Fixpoint join (sep : string) (l : list string) : string :=
  match l with
  | [] => ""
  | [s] => s
  | s :: l' => s +:+ sep +:+ join sep l'
  end.

(** Whitespace normalisation (trim, runs of blanks to one space) followed by
    case folding: the form under which titles, companies and locations are
    compared. *)
Definition normalize_text (s : string) : string :=
  lowercase (join " " (words s)).

(** Cut [s] at the first occurrence of [sub]: what is before and after it. *)
Fixpoint cut_at (sub s : string) : option (string * string) :=
  if String.prefix sub s
  then Some ("", String.substring (String.length sub)
                   (String.length s - String.length sub) s)
  else match s with
       | EmptyString => None
       | String c s' =>
           match cut_at sub s' with
           | Some (a, b) => Some (String c a, b)
           | None => None
           end
       end.

(** Cut [s] in front of the first character satisfying [stop]; the second
    part starts with that character, or is empty. *)
Fixpoint span_until (stop : ascii → bool) (s : string) : string * string :=
  match s with
  | EmptyString => ("", "")
  | String c s' =>
      if stop c then ("", s)
      else let '(a, b) := span_until stop s' in (String c a, b)
  end.

Definition ascii_is (c : ascii) (x : ascii) : bool := bool_decide (x = c).

Fixpoint all_chars (f : ascii → bool) (s : string) : bool :=
  match s with
  | EmptyString => true
  | String c s' => f c && all_chars f s'
  end.

(** The characters of a URL scheme: letters, digits, [+], [-] and [.]. *)
Definition is_scheme_char (c : ascii) : bool :=
  let n := nat_of_ascii c in
  ((97 <=? n)%nat && (n <=? 122)%nat) || is_upper c
  || ((48 <=? n)%nat && (n <=? 57)%nat)
  || ascii_is "+" c || ascii_is "-" c || ascii_is "." c.

(** *** What "match case-insensitively after whitespace normalization" means

    The relations below say, without reference to [lowercase], [words] or
    [normalize_text], when two texts match. *)

(** The same character, or the upper and the lower case of one letter of the
    ASCII alphabet (65 to 90 and 97 to 122). *)
Definition same_letter (c d : ascii) : Prop :=
  c = d
  ∨ ((65 <= nat_of_ascii c <= 90)%nat
     ∧ nat_of_ascii d = (nat_of_ascii c + 32)%nat)
  ∨ ((65 <= nat_of_ascii d <= 90)%nat
     ∧ nat_of_ascii c = (nat_of_ascii d + 32)%nat).

(** Two strings that differ in the case of their letters at most. *)
Inductive same_ignoring_case : string → string → Prop :=
| same_empty : same_ignoring_case "" ""
| same_next c d a b :
    same_letter c d → same_ignoring_case a b →
    same_ignoring_case (String c a) (String d b).

(** A run of whitespace, possibly empty. *)
Definition blank (s : string) : Prop := all_chars is_space s = true.

(** A word: at least one character, none of them whitespace. *)
Definition word (s : string) : Prop :=
  nonempty s = true ∧ all_chars (λ c, negb (is_space c)) s = true.

(** Nothing, or something that starts with a whitespace character. *)
Definition starts_blank (s : string) : Prop :=
  match s with
  | EmptyString => True
  | String c _ => is_space c = true
  end.

(** [spaced ws s]: the text [s] is the words [ws], in this order, with
    whitespace between them and possibly before the first and after the
    last. *)
Inductive spaced : list string → string → Prop :=
| spaced_nil gap : blank gap → spaced [] gap
| spaced_cons gap w ws rest :
    blank gap → word w → starts_blank rest → spaced ws rest →
    spaced (w :: ws) (gap +:+ w +:+ rest).

(** The two texts have the same words, up to the case of their letters and
    whatever the whitespace around the words. *)
Definition text_matches (a b : string) : Prop :=
  ∃ wa wb, spaced wa a ∧ spaced wb b ∧ Forall2 same_ignoring_case wa wb.

End Text.

(** ** The core: data model (spec section 3) *)

Module Core.
Import Text.

(** Modelled from the spec: real_job_scraper.py and job_matcher.py are not
    part of the sources; the records, the deduplicator, the orchestrator and
    the matcher below follow sections 3 to 5 and 7 of the specification. *)
Record JobPosting := {
  source : string;
  externalId : string;
  title : string;
  company : string;
  location : string;
  description : string;
  url : string;
  postedAt : option Z;
  salaryRange : option (Z * Z * string);
  skillsMentioned : gset string;
  matchPercentage : option Z
}.

Record ResumeRecord := {
  skills : gset string;
  yearsExperience : option Q;
  titles : list string;
  education : string;
  candidateLocation : option string
}.

Inductive SourceError :=
| SourceTimeout
| SourceRateLimited
| SourceParseError
| SourceNetworkError.

Record SourceResult := {
  resultSource : string;
  jobs : list JobPosting;
  error : option SourceError;
  elapsedMs : Z
}.

(** ** Deduplicator (spec section 4.3) *)

(** Modelled from the spec: the spec names no list of tracking parameters;
    [ref] is the one of its example, the [utm_] family and the click
    identifiers are the customary ones. The name is compared whatever its
    case. *)
Definition is_tracking_param (name : string) : bool :=
  let name := lowercase name in
  String.prefix "utm_" name
  || bool_decide (name ∈ ["ref"; "fbclid"; "gclid"; "trk"]).

Definition param_name (kv : string) : string :=
  (span_until (ascii_is "=") kv).1.

(** The parameters that normalisation keeps. *)
Definition keeps_param (kv : string) : bool :=
  nonempty kv && negb (is_tracking_param (param_name kv)).

(** Modelled from the spec: "lowercase scheme/host". The authority of a URL
    is the host, possibly behind [userinfo@]; the user information is kept
    as it is. *)
Definition normalize_authority (authority : string) : string :=
  let '(userinfo, rest) := span_until (ascii_is "@") authority in
  match rest with
  | EmptyString => lowercase authority
  | String at_sign host => userinfo +:+ String at_sign (lowercase host)
  end.

Definition ends_authority (c : ascii) : bool :=
  ascii_is "/" c || ascii_is "?" c || ascii_is "#" c.

Definition render_query (params : list string) : string :=
  match params with
  | [] => ""
  | _ => "?" +:+ join "&" params
  end.

(** Modelled from the spec: "strip tracking query parameters, lowercase
    scheme/host". The URL is read as scheme://authority path ?query
    #fragment; the path, the remaining parameters and the fragment are kept
    as they are. *)
Definition normalize_url (u : string) : string :=
  let '(scheme, rest) :=
    match cut_at "://" u with
    | Some (s, r) =>
        if nonempty s && all_chars is_scheme_char s
        then (lowercase s +:+ "://", r)
        else ("", u)
    | None => ("", u)
    end in
  let '(authority, rest) := span_until ends_authority rest in
  let '(rest, fragment) := span_until (ascii_is "#") rest in
  let '(path, query) := span_until (ascii_is "?") rest in
  let params :=
    match query with
    | EmptyString => []
    | String _ q => List.filter keeps_param (split (ascii_is "&") q)
    end in
  scheme +:+ normalize_authority authority +:+ path
  +:+ render_query params +:+ fragment.

(** *** What "equal after normalization" means for URLs

    An absolute URL by its parts, and when two of them match, without
    reference to [normalize_url]. *)

Record UrlParts := {
  url_scheme : string;
  url_userinfo : option string;
  url_host : string;
  url_path : string;
  url_params : list string;
  url_fragment : option string
}.

Definition render_authority (userinfo : option string) (host : string)
  : string :=
  match userinfo with
  | Some u => u +:+ "@" +:+ host
  | None => host
  end.

Definition render_fragment (fragment : option string) : string :=
  match fragment with
  | Some f => "#" +:+ f
  | None => ""
  end.

(** scheme://[userinfo@]host[path][?param&...&param][#fragment] *)
Definition render (p : UrlParts) : string :=
  url_scheme p +:+ "://"
  +:+ render_authority (url_userinfo p) (url_host p)
  +:+ url_path p
  +:+ render_query (url_params p)
  +:+ render_fragment (url_fragment p).

(** No character of [s] is one of [stop]. *)
Definition lacks (stop : ascii → bool) (s : string) : Prop :=
  all_chars (λ c, negb (stop c)) s = true.

(** The parts are delimited as their places in the URL demand. *)
Definition well_formed (p : UrlParts) : Prop :=
  nonempty (url_scheme p) = true
  ∧ all_chars is_scheme_char (url_scheme p) = true
  ∧ (∀ u, url_userinfo p = Some u →
          lacks (λ c, ends_authority c || ascii_is "@" c) u)
  ∧ lacks (λ c, ends_authority c || ascii_is "@" c) (url_host p)
  ∧ (url_path p = "" ∨ ∃ rest, url_path p = String "/" rest)
  ∧ lacks (λ c, ascii_is "?" c || ascii_is "#" c) (url_path p)
  ∧ Forall (lacks (λ c, ascii_is "&" c || ascii_is "#" c)) (url_params p).

(** Modelled from the spec: "strip tracking query parameters, lowercase
    scheme/host", part by part. *)
Definition normalised (p : UrlParts) : UrlParts :=
  {| url_scheme := lowercase (url_scheme p);
     url_userinfo := url_userinfo p;
     url_host := lowercase (url_host p);
     url_path := url_path p;
     url_params := List.filter keeps_param (url_params p);
     url_fragment := url_fragment p |}.

(** The two URLs are the same but for the case of scheme and host and for
    their tracking parameters. *)
Definition url_matches (u v : string) : Prop :=
  ∃ p q,
    well_formed p ∧ well_formed q ∧ u = render p ∧ v = render q
    ∧ same_ignoring_case (url_scheme p) (url_scheme q)
    ∧ url_userinfo p = url_userinfo q
    ∧ same_ignoring_case (url_host p) (url_host q)
    ∧ url_path p = url_path q
    ∧ List.filter keeps_param (url_params p)
      = List.filter keeps_param (url_params q)
    ∧ url_fragment p = url_fragment q.

(** The two identities of a posting (glossary, "dedup key"). *)
Definition url_key (p : JobPosting) : string := normalize_url (url p).

Definition listing_key (p : JobPosting) : string * string * string :=
  (normalize_text (title p), normalize_text (company p),
   normalize_text (location p)).

(** Modelled from the spec: "duplicates when either (a) their urls are equal
    after normalization, or (b) their title, company, and location all match
    case-insensitively after whitespace normalization". *)
Definition is_duplicate (p q : JobPosting) : bool :=
  bool_decide (url_key p = url_key q)
  || bool_decide (listing_key p = listing_key q).

(** The same condition without the normalisers: the URLs match, or the
    titles, the companies and the locations do. *)
Definition same_job (p q : JobPosting) : Prop :=
  url_matches (url p) (url q)
  ∨ (text_matches (title p) (title q)
     ∧ text_matches (company p) (company q)
     ∧ text_matches (location p) (location q)).

(** A group of postings of one underlying job: the first one seen, and the
    later ones in the order they were merged. *)
Definition group : Type := JobPosting * list JobPosting.

Definition members (g : group) : list JobPosting := g.1 :: g.2.

Definition touches (j : JobPosting) (g : group) : bool :=
  existsb (is_duplicate j) (members g).

(** Modelled from the spec: every pair of duplicates is merged, so a new
    posting joins the first group holding a duplicate of it, together with
    every later group that holds one; a posting that duplicates nothing seen
    so far opens a group behind the others (first-seen order). *)
Fixpoint add_posting (j : JobPosting) (gs : list group) : list group :=
  match gs with
  | [] => [(j, [])]
  | g :: gs' =>
      if touches j g
      then (g.1, g.2 ++ concat (members <$> filter (λ h, touches j h) gs') ++ [j])
           :: filter (λ h, ¬ touches j h) gs'
      else g :: add_posting j gs'
  end.

Definition duplicate_groups (postings : list JobPosting) : list group :=
  fold_left (λ gs j, add_posting j gs) postings [].

Definition richer (d1 d2 : string) : string :=
  if (String.length d1 <? String.length d2)%nat then d2 else d1.

Definition with_merged (p : JobPosting) (d : string) (s : gset string)
  : JobPosting :=
  {| source := source p; externalId := externalId p; title := title p;
     company := company p; location := location p; description := d;
     url := url p; postedAt := postedAt p; salaryRange := salaryRange p;
     skillsMentioned := s; matchPercentage := matchPercentage p |}.

(** Modelled from the spec: "the surviving record prefers the one with the
    richer description (longer non-empty text) and unions the skillsMentioned
    sets". The survivor is the first posting seen; it takes the longest
    description of its group (the earliest among equally long ones) and the
    union of the skills. *)
Definition survivor (g : group) : JobPosting :=
  with_merged g.1
    (fold_left richer (description <$> g.2) (description g.1))
    (fold_left (∪) (skillsMentioned <$> g.2) (skillsMentioned g.1)).

(** Modelled from the spec: [dedup(jobs) -> sequence of JobPosting],
    preserving first-seen order: one survivor for each group of duplicates,
    the groups in the order in which their first posting was seen. *)
Definition dedup (postings : list JobPosting) : list JobPosting :=
  survivor <$> duplicate_groups postings.

(** What of a posting the merge never changes. *)
Definition identity_of (p : JobPosting) : JobPosting := with_merged p "" ∅.

#[global] Instance JobPosting_eq_dec : EqDecision JobPosting.
Proof. solve_decision. Defined.

(** No posting of [g] duplicates a posting of [h]. *)
Definition separated (g h : group) : Prop :=
  ∀ a b, a ∈ members g → b ∈ members h → is_duplicate a b = false.

(** The groups are pairwise separated. *)
Fixpoint Sep (gs : list group) : Prop :=
  match gs with
  | [] => True
  | g :: gs' => Forall (separated g) gs' ∧ Sep gs'
  end.

(** No two postings of the list are duplicates. *)
Fixpoint Apart (l : list JobPosting) : Prop :=
  match l with
  | [] => True
  | p :: l' => Forall (λ q, is_duplicate p q = false) l' ∧ Apart l'
  end.

Definition all_members (gs : list group) : list JobPosting :=
  concat (members <$> gs).

Definition alone (p : JobPosting) : group := (p, []).

(** [a] and [b] are duplicates of each other, both among the postings of
    [l]. *)
Definition duplicates_in (l : list JobPosting) (a b : JobPosting) : Prop :=
  a ∈ l ∧ b ∈ l ∧ is_duplicate a b = true.



(** ** Fetch orchestrator (spec sections 4.1, 4.2 and 5) *)

(** What one adapter does within a request: it hands back its result (a
    failure being captured in [error], as section 4.1 asks), it raises in
    spite of that contract, or it never returns. *)
Inductive AdapterRun :=
| Returned (r : SourceResult)
| Raises (e : SourceError) (elapsed : Z)
| Hangs.

Definition Adapter : Type := string → string → AdapterRun.

Definition timed_out (name : string) (timeout_ms : Z) : SourceResult :=
  {| resultSource := name; jobs := []; error := Some SourceTimeout;
     elapsedMs := timeout_ms |}.

(** Modelled from the spec: "exceptions used for per-source failure" are
    replaced "with a tagged result per adapter" (section 9): what an adapter
    raises is captured as the [error] of a result without postings. *)
Definition captured (name : string) (e : SourceError) (elapsed : Z)
  : SourceResult :=
  {| resultSource := name; jobs := []; error := Some e; elapsedMs := elapsed |}.

(** Modelled from the spec: "adapters still running when the timeout elapses
    are cancelled and treated as failed (error = Timeout) - their partial
    in-flight data, if any, is discarded". *)
Definition settle (timeout_ms : Z) (name : string) (run : AdapterRun)
  : SourceResult :=
  match run with
  | Hangs => timed_out name timeout_ms
  | Raises e elapsed =>
      if (timeout_ms <? elapsed)%Z then timed_out name timeout_ms
      else captured name e elapsed
  | Returned r =>
      if (timeout_ms <? elapsedMs r)%Z then timed_out name timeout_ms else r
  end.

Definition succeeded (r : SourceResult) : bool :=
  match error r with None => true | Some _ => false end.

(** Modelled from the spec: all adapters are run; their results are taken in
    registration order whatever the order of completion (section 5). *)
Definition collect (timeout_ms : Z) (adapters : list (string * Adapter))
    (jobTitle loc : string) : list SourceResult :=
  (λ a, settle timeout_ms a.1 (a.2 jobTitle loc)) <$> adapters.

(** Modelled from the spec: "concatenates all successful SourceResult.jobs
    (order: by registration order, then by each source's own result order)":
    the postings of the results without error; a result with an error
    contributes nothing, so that the outcome is empty when every adapter
    fails. *)
Definition collected (timeout_ms : Z) (adapters : list (string * Adapter))
    (jobTitle loc : string) : list JobPosting :=
  concat (jobs <$> filter (λ r, succeeded r)
                     (collect timeout_ms adapters jobTitle loc)).

(** Modelled from the spec: [scrapeAllSources(jobTitle, location) -> sequence
    of JobPosting]; it "passes the concatenation to the Deduplicator before
    returning". *)
Definition scrapeAllSources (timeout_ms : Z) (adapters : list (string * Adapter))
    (jobTitle loc : string) : list JobPosting :=
  dedup (collected timeout_ms adapters jobTitle loc).


(** ** Matcher (spec section 4.4) *)

(** Modelled from the spec: the weights and the experience band are "tunable
    constants" exposed as configuration (section 9); the spec fixes neither
    the slope of the decay outside the band nor how the band is parsed from
    the description and the title. *)
Record MatcherConfig := {
  w_skill : Q;
  w_title : Q;
  w_experience : Q;
  decay_per_year : Q;
  infer_band : string → string → option (Q * Q)
}.

(** The weights the spec gives as examples: 60%, 25%, 15%. *)
Definition default_config : MatcherConfig :=
  {| w_skill := 60 # 100; w_title := 25 # 100; w_experience := 15 # 100;
     decay_per_year := 1 # 5; infer_band := λ _ _, None |}.

Definition valid_weights (cfg : MatcherConfig) : Prop :=
  (0 <= w_skill cfg ∧ 0 <= w_title cfg ∧ 0 <= w_experience cfg
   ∧ w_skill cfg + w_title cfg + w_experience cfg == 1)%Q.

(** Modelled from the spec: "sub-scores are each clamped to [0,1] before
    weighting". *)
Definition clamp01 (x : Q) : Q :=
  if Qle_bool x 0 then 0%Q else if Qle_bool 1 x then 1%Q else x.

(** [n / d], and 0 when the denominator is 0. *)
Definition ratio (n d : nat) : Q :=
  match d with
  | O => 0%Q
  | S _ => Z.of_nat n # Pos.of_nat d
  end.

(** Modelled from the spec: "size of intersection of resume.skills and
    job.skillsMentioned divided by size of job.skillsMentioned (guard against
    empty denominator -> contributes 0, not an error)". *)
Definition skill_overlap (r : ResumeRecord) (j : JobPosting) : Q :=
  ratio (size (skills r ∩ skillsMentioned j)) (size (skillsMentioned j)).

Definition tokens (s : string) : gset string :=
  list_to_set (words (lowercase s)).

(** Modelled from the spec: "token-overlap ratio between job.title and the
    most recent entry of resume.titles": shared tokens over all tokens; the
    sequence of past titles is chronological, its last entry the most recent;
    with no past title the sub-score is 0. *)
Definition title_similarity (r : ResumeRecord) (j : JobPosting) : Q :=
  match last (titles r) with
  | None => 0%Q
  | Some t =>
      ratio (size (tokens (title j) ∩ tokens t))
            (size (tokens (title j) ∪ tokens t))
  end.

(** Modelled from the spec: "1.0 if resume.yearsExperience falls within an
    inferred experience band, decaying linearly outside the band, 0.5 default
    when the band cannot be inferred"; with a band and no years on the resume
    the sub-score is 0 (partial fields degrade towards 0). *)
Definition experience_fit (cfg : MatcherConfig) (r : ResumeRecord)
    (j : JobPosting) : Q :=
  match infer_band cfg (description j) (title j) with
  | None => 1 # 2
  | Some (lo, hi) =>
      match yearsExperience r with
      | None => 0
      | Some y =>
          if Qle_bool lo y
          then if Qle_bool y hi then 1
               else 1 - decay_per_year cfg * (y - hi)
          else 1 - decay_per_year cfg * (lo - y)
      end
  end%Q.

(** Modelled from the spec: the weighted sum of the clamped sub-scores, over
    exact rationals. *)
Definition weighted_sum (cfg : MatcherConfig) (r : ResumeRecord)
    (j : JobPosting) : Q :=
  (w_skill cfg * clamp01 (skill_overlap r j)
   + w_title cfg * clamp01 (title_similarity r j)
   + w_experience cfg * clamp01 (experience_fit cfg r j))%Q.

Definition round_nearest (x : Q) : Z := Qfloor (x + (1 # 2)).

(** Modelled from the spec: "the weighted sum is scaled to [0,100] and
    rounded to the nearest integer". *)
Definition match_score (cfg : MatcherConfig) (r : ResumeRecord)
    (j : JobPosting) : Z :=
  round_nearest (100 * weighted_sum cfg r j).

(** Modelled from the spec: [calculateMatchPercentage(resume, job)], as a
    step on the two records the call is handed: the score, and the records as
    the call leaves them. *)
Definition calculateMatchPercentage (cfg : MatcherConfig)
    (args : ResumeRecord * JobPosting) : Z * (ResumeRecord * JobPosting) :=
  let '(resume, job) := args in
  (match_score cfg resume job, (resume, job)).

End Core.

(** ** The other endpoints of jobsearch.py *)

Module Api.

(** A Python object as it travels through these endpoints: the values of
    JSON, a float being carried by its [repr] (no arithmetic is done on
    it). *)
#[warnings="-register-all"]
Inductive pyobj :=
| PNone
| PBool (b : bool)
| PInt (n : Z)
| PFloat (repr : string)
| PStr (s : string)
| PList (l : list pyobj)
| PDict (d : gmap string pyobj).

Abbreviation pydict := (gmap string pyobj).

Definition type_name (o : pyobj) : string :=
  match o with
  | PNone => "NoneType"
  | PBool _ => "bool"
  | PInt _ => "int"
  | PFloat _ => "float"
  | PStr _ => "str"
  | PList _ => "list"
  | PDict _ => "dict"
  end.

(** A [str] is carried as its UTF-8 bytes: a character starts at every byte
    that is not a continuation byte (10xxxxxx). *)
Definition is_continuation (c : ascii) : bool :=
  (128 <=? nat_of_ascii c)%nat && (nat_of_ascii c <=? 191)%nat.

(** [len(s)] of a [str]: its number of characters. *)
Fixpoint str_len (s : string) : nat :=
  match s with
  | EmptyString => 0
  | String c s' => (if is_continuation c then 0 else 1) + str_len s'
  end.

(** [len(o)] *)
Definition py_len (o : pyobj) : result nat :=
  match o with
  | PStr s => Ok (str_len s)
  | PList l => Ok (length l)
  | PDict d => Ok (size d)
  | _ => Raise (Exception "TypeError"
                  ("object of type '" +:+ type_name o +:+ "' has no len()"))
  end.

(** [d[k]] on a dict: a missing key raises [KeyError], whose [str] is the
    [repr] of the key (the key in quotes, for the plain keys used here). *)
Definition subscript (d : pydict) (k : string) : result pyobj :=
  match d !! k with
  | Some v => Ok v
  | None => Raise (Exception "KeyError" ("'" +:+ k +:+ "'"))
  end.

(** [d.get(k, default)] *)
Definition dict_get (d : pydict) (k : string) (default : pyobj) : pyobj :=
  match d !! k with
  | Some v => v
  | None => default
  end.

(** [s[:n]]: the first [n] characters, each with all its bytes. *)
Fixpoint slice_to (n : nat) (s : string) : string :=
  match s with
  | EmptyString => EmptyString
  | String c s' =>
      if is_continuation c then String c (slice_to n s')
      else match n with
           | O => EmptyString
           | S n' => String c (slice_to n' s')
           end
  end.

(** What the logger receives. *)
Inductive level := INFO | ERROR.

Record entry := LogEntry { entry_level : level; entry_message : string }.

(** A computation that logs and may raise: the lines logged until it
    returned or raised, and its outcome. *)
Record logged (A : Type) := Logged { entries : list entry; outcome : result A }.
Arguments Logged {A} entries outcome.
Arguments entries {A} l.
Arguments outcome {A} l.

#[global] Instance logged_ret : MRet logged := λ A a, Logged [] (Ok a).

#[global] Instance logged_bind : MBind logged := λ A B k c,
  match outcome c with
  | Ok a => Logged (entries c ++ entries (k a)) (outcome (k a))
  | Raise e => Logged (entries c) (Raise e)
  end.

Definition log (lv : level) (message : string) : logged unit :=
  Logged [LogEntry lv message] (Ok tt).

(** A call that does not log. *)
Definition call {A} (r : result A) : logged A := Logged [] r.

(** What an endpoint hands to the framework: a body, or
    [raise HTTPException(status_code, detail)]. *)
Inductive http_result :=
| Respond (body : pydict)
| HTTPException (status_code : Z) (detail : string).

(** [try: body / except Exception as e: handler(e)], the body returning the
    response. *)
Definition try_except_logged (body : logged pydict)
    (handler : exn → list entry * http_result) : list entry * http_result :=
  match outcome body with
  | Ok b => (entries body, Respond b)
  | Raise e => let '(l, r) := handler e in (entries body ++ l, r)
  end.

(** [logger.error(f"{what}: {str(e)}")] followed by
    [raise HTTPException(status_code=500, detail=str(e))]. *)
Definition log_and_raise_500 (what : string) (e : exn)
  : list entry * http_result :=
  ([LogEntry ERROR (what +:+ ": " +:+ exn_str e)],
   HTTPException 500 (exn_str e)).

(** An uploaded file: its name, if any, and what reading it gives. *)
Record UploadFile := {
  filename : option string;
  read : result (list Byte.byte)
}.

Section Endpoints.

(** [bytes.decode("utf-8", errors="ignore")], which never raises. *)
Variable decode_utf8_ignore : list Byte.byte → string.

(** [resume_parser.parse_resume(text)], [chatbot.predict_intent(message)],
    [chatbot.generate_response(intent)] and
    [autofill.auto_fill_application(resume_data, job_data)]: the classes
    AdvancedResumeParser, MLChatbot and AIAutoFill are not part of the
    sources; each call returns or raises. The parser and the classifier
    return dicts, which is how the endpoints use their results. *)
Variable resume_parser_parse_resume : string → result pydict.
Variable chatbot_predict_intent : string → result pydict.
Variable chatbot_generate_response : pyobj → result pyobj.
Variable autofill_auto_fill_application : pydict → pydict → result pyobj.

(** [str(o)], as the f-strings apply it. *)
Variable str_of : pyobj → string.

(** [datetime.now().isoformat()] *)
Variable now_isoformat : string.

(** jobsearch.py, POST /api/v1/resume/parse *)
Definition parse_resume (file : UploadFile) : list entry * http_result :=
  try_except_logged
    (log INFO ("Parsing resume: " +:+ default "None" (filename file));;
     content ← call (read file);
     let text := decode_utf8_ignore content in
     parsed_data ← call (resume_parser_parse_resume text);
     skills ← call (subscript parsed_data "skills");
     n ← call (py_len skills);
     log INFO ("Resume parsed - Found " +:+ pretty n +:+ " skills");;
     mret (<["success" := PBool true]>
           (<["parsed_data" := PDict parsed_data]> (∅ : pydict))))
    (log_and_raise_500 "Resume parsing error").

(** jobsearch.py, POST /api/v1/chatbot/chat *)
Definition chat (user_message : string) : list entry * http_result :=
  try_except_logged
    (log INFO ("Chatbot: " +:+ slice_to 50 user_message);;
     intent_data ← call (chatbot_predict_intent user_message);
     let intent := dict_get intent_data "intent" (PStr "general") in
     let confidence := dict_get intent_data "confidence" (PFloat "0.0") in
     response ← call (chatbot_generate_response intent);
     mret (<["success" := PBool true]>
           (<["response" := response]>
           (<["intent" := intent]>
           (<["confidence" := confidence]>
           (<["timestamp" := PStr now_isoformat]> (∅ : pydict)))))))
    (log_and_raise_500 "Chatbot error").

(** jobsearch.py, POST /api/v1/jobs/autofill *)
Definition autofill_application (resume_data job_data : pydict)
  : list entry * http_result :=
  try_except_logged
    (log INFO ("Auto-filling application for: "
               +:+ str_of (dict_get job_data "title" PNone));;
     filled_application ←
       call (autofill_auto_fill_application resume_data job_data);
     mret (<["success" := PBool true]>
           (<["filled_application" := filled_application]>
           (<["timestamp" := PStr now_isoformat]> (∅ : pydict)))))
    (log_and_raise_500 "Auto-fill error").

End Endpoints.

Definition is_info (e : entry) : Prop := entry_level e = INFO.

(** How the three endpoints above answer: with a body flagged as a success,
    nothing but INFO lines in the log; or with status 500, the log ending in
    the one ERROR line, which carries the detail sent to the client. *)
Definition answers_or_500 (res : list entry * http_result) : Prop :=
  match res.2 with
  | Respond body =>
      body !! "success" = Some (PBool true) ∧ Forall is_info res.1
  | HTTPException status_code detail =>
      status_code = 500%Z
      ∧ ∃ before what,
          res.1 = before ++ [LogEntry ERROR (what +:+ ": " +:+ detail)]
          ∧ Forall is_info before
  end.

End Api.

(** ** Data for the worked examples *)

Module Examples.
Import Core.

Definition job_with_id (id : Z) : dict :=
  <["id" := PyNum id]> (<["title" := PyStr "Software Engineer"]> ∅).

Definition three_jobs : list dict := [job_with_id 1; job_with_id 2; job_with_id 3].

(** Scores 80, 80 and 90 for the jobs 1, 2 and 3. *)
Definition example_matcher (resume_data : option dict) (job : dict) : Z :=
  match job !! "id" with
  | Some (PyNum 3) => 90
  | _ => 80
  end.

Definition scraper_up (job_title loc : string) : result (list dict) :=
  Ok three_jobs.

Definition scraper_down (job_title loc : string) : result (list dict) :=
  Raise (Exception "TimeoutError" "all sources timed out").

Definition a_resume : dict := <["skills" := PyList ["python"; "sql"]]> ∅.

Definition a_timestamp : string := "2026-01-01T12:00:00".

Definition job_ids (l : list dict) : list (option pyval) :=
  (λ job : dict, job !! "id") <$> l.

Definition posting (u t d : string) (sk : list string) : JobPosting :=
  {| source := "indeed"; externalId := ""; title := t; company := "Acme";
     location := "Austin"; description := d; url := u; postedAt := None;
     salaryRange := None; skillsMentioned := list_to_set sk;
     matchPercentage := None |}.

Definition posting_abc : JobPosting :=
  posting "https://site.com/job/123?ref=abc" "Software Engineer"
          "Build services." ["python"].

Definition posting_xyz : JobPosting :=
  posting "https://site.com/job/123?ref=xyz" "Backend Developer"
          "Build and run services." ["sql"].

(** The parts of the two URLs of the specification's example. *)
Definition job_123 (ref : string) : UrlParts :=
  {| url_scheme := "https"; url_userinfo := None; url_host := "site.com";
     url_path := "/job/123"; url_params := ["ref=" +:+ ref];
     url_fragment := None |}.

Definition posting_qa : JobPosting :=
  posting "https://other.org/jobs/9" "QA Analyst" "Test things." [].

Definition adapter_A : Adapter :=
  λ _ _, Returned {| resultSource := "A"; jobs := [posting_abc; posting_qa];
                     error := None; elapsedMs := 120 |}.

(** B never answers. *)
Definition adapter_B : Adapter := λ _ _, Hangs.

Definition adapter_C : Adapter :=
  λ _ _, Returned {| resultSource := "C"; jobs := [posting_xyz];
                     error := None; elapsedMs := 300 |}.

Definition three_adapters : list (string * Adapter) :=
  [("A", adapter_A); ("B", adapter_B); ("C", adapter_C)].

(** An adapter that answers with no posting. *)
Definition adapter_none : Adapter :=
  λ _ _, Returned {| resultSource := "N"; jobs := []; error := None;
                     elapsedMs := 80 |}.

Definition a_candidate : ResumeRecord :=
  {| skills := list_to_set ["python"; "go"]; yearsExperience := Some (3 # 1);
     titles := ["Intern"; "Software Engineer"]; education := "BSc";
     candidateLocation := None |}.

Definition posting_no_skills : JobPosting :=
  posting "https://other.org/jobs/10" "Senior Software Engineer" "" [].

End Examples.

(** Data for the examples of the other endpoints. *)
Module ApiExamples.
Import Api.

(** A matcher that gives every job the same score. *)
Definition constant_matcher (resume_data : option dict) (job : dict) : Z := 70.

Definition decode_stub (content : list Byte.byte) : string := "Ann - python, sql".

Definition a_file : UploadFile :=
  {| filename := Some "cv.txt"; read := Ok [] |}.

Definition parsed_with_skills : pydict :=
  <["skills" := PList [PStr "python"; PStr "sql"]]> (<["name" := PStr "Ann"]> ∅).

Definition parsed_without_skills : pydict := <["name" := PStr "Ann"]> ∅.

Definition parser_with_skills (text : string) : result pydict :=
  Ok parsed_with_skills.

Definition parser_without_skills (text : string) : result pydict :=
  Ok parsed_without_skills.

(** A classifier that reports a confidence and no intent. *)
Definition predict_no_intent (message : string) : result pydict :=
  Ok (<["confidence" := PFloat "0.87"]> ∅).

(** [n] times the string [s]. *)
Fixpoint times (n : nat) (s : string) : string :=
  match n with
  | O => ""
  | S n' => s +:+ times n' s
  end.

Definition generate_stub (intent : pyobj) : result pyobj :=
  match intent with
  | PStr "general" => Ok (PStr "How can I help?")
  | _ => Ok (PStr "Tell me more.")
  end.

End ApiExamples.

(** * Theorems *)

(** ** [sorted] is a stable sort *)

Module SortFacts.
Section Insert.
Context {A : Type}.
Implicit Types (x : Z * A) (l acc : list (Z * A)) (k : Z).


Lemma filter_none {B} (P : B → Prop) `{!∀ b, Decision (P b)} (bs : list B) :
  Forall (λ b, ¬ P b) bs → filter P bs = [].
Proof.
  induction 1 as [|b bs Hb _ IH]; [done|].
  by rewrite filter_cons_False.
Qed.

Lemma insert_by_key_perm x l : insert_by_key x l ≡ₚ x :: l.
Proof.
  induction l as [|y l IH]; simpl; [done|].
  destruct (x.1 <? y.1)%Z; [done|].
  rewrite IH. apply Permutation_swap.
Qed.

Lemma insert_by_key_sorted x l :
  StronglySorted key_le l → StronglySorted key_le (insert_by_key x l).
Proof.
  induction 1 as [|y l Hs IH Hy]; simpl.
  - repeat constructor.
  - destruct (Z.ltb_spec x.1 y.1) as [Hlt|Hge].
    + constructor; [by constructor|].
      constructor; [unfold key_le; lia|].
      eapply Forall_impl; [exact Hy|]. unfold key_le. intros; simpl in *; lia.
    + constructor; [done|].
      rewrite (insert_by_key_perm x l). by constructor.
Qed.

(** An item joins the items of its own key behind them, and leaves the items
    of every other key where they are. *)
Lemma insert_by_key_filter k x l :
  StronglySorted key_le l →
  filter (λ p, p.1 = k) (insert_by_key x l)
  = filter (λ p, p.1 = k) l ++ filter (λ p, p.1 = k) [x].
Proof.
  induction 1 as [|y l Hs IH Hy]; simpl; [done|].
  destruct (Z.ltb_spec x.1 y.1) as [Hlt|Hge].
  - destruct (decide (x.1 = k)) as [Hk|Hk].
    + rewrite (filter_cons_True _ x) by done.
      assert (Hnone : filter (λ p : Z * A, p.1 = k) (y :: l) = []).
      { apply filter_none. constructor; [lia|].
        eapply Forall_impl; [exact Hy|]. unfold key_le. intros; simpl in *; lia. }
      rewrite Hnone. simpl. by rewrite filter_cons_True by done.
    + rewrite (filter_cons_False _ x) by done.
      rewrite (filter_cons_False _ x []) by done.
      by rewrite filter_nil, app_nil_r.
  - rewrite !(filter_cons _ y), IH. by destruct (decide (y.1 = k)).
Qed.

Lemma sort_from_perm l acc :
  fold_left (λ acc x, insert_by_key x acc) l acc ≡ₚ acc ++ l.
Proof.
  revert acc. induction l as [|x l IH]; intros acc; simpl.
  - by rewrite app_nil_r.
  - rewrite IH, insert_by_key_perm. simpl. apply Permutation_middle.
Qed.

Lemma sort_from_sorted l acc :
  StronglySorted key_le acc →
  StronglySorted key_le (fold_left (λ acc x, insert_by_key x acc) l acc).
Proof.
  revert acc. induction l as [|x l IH]; intros acc Hacc; simpl; [done|].
  apply IH. by apply insert_by_key_sorted.
Qed.

Lemma sort_from_filter k l acc :
  StronglySorted key_le acc →
  filter (λ p, p.1 = k) (fold_left (λ acc x, insert_by_key x acc) l acc)
  = filter (λ p, p.1 = k) acc ++ filter (λ p, p.1 = k) l.
Proof.
  revert acc. induction l as [|x l IH]; intros acc Hacc; simpl.
  - by rewrite filter_nil, app_nil_r.
  - rewrite IH by (by apply insert_by_key_sorted).
    rewrite insert_by_key_filter by done.
    rewrite <- app_assoc. f_equal. by rewrite <- filter_app.
Qed.

Lemma sort_by_key_perm l : sort_by_key l ≡ₚ l.
Proof. unfold sort_by_key. by rewrite sort_from_perm. Qed.

Lemma sort_by_key_sorted l : StronglySorted key_le (sort_by_key l).
Proof. apply sort_from_sorted. constructor. Qed.

Lemma sort_by_key_stable k l :
  filter (λ p, p.1 = k) (sort_by_key l) = filter (λ p, p.1 = k) l.
Proof. unfold sort_by_key. rewrite sort_from_filter; [done|constructor]. Qed.

Lemma reverse_sorted l :
  StronglySorted key_le l → StronglySorted key_ge (reverse l).
Proof.
  induction 1 as [|y l Hs IH Hy].
  - rewrite reverse_nil. constructor.
  - rewrite reverse_cons. apply StronglySorted_app_2; [|done|repeat constructor].
    intros a b Ha Hb. apply list_elem_of_singleton in Hb as ->.
    rewrite elem_of_reverse in Ha. rewrite Forall_forall in Hy.
    exact (Hy a Ha).
Qed.


Lemma sort_descending_perm l : sort_descending l ≡ₚ l.
Proof.
  unfold sort_descending.
  by rewrite reverse_Permutation, sort_by_key_perm, reverse_Permutation.
Qed.

Lemma sort_descending_sorted l : StronglySorted key_ge (sort_descending l).
Proof. apply reverse_sorted, sort_by_key_sorted. Qed.

Lemma sort_descending_stable k l :
  filter (λ p, p.1 = k) (sort_descending l) = filter (λ p, p.1 = k) l.
Proof.
  unfold sort_descending.
  rewrite filter_reverse, sort_by_key_stable, filter_reverse.
  apply reverse_involutive.
Qed.

End Insert.
End SortFacts.

(** ** The route layer *)

Module RouteFacts.
Import Routes SortFacts.

Section Facts.
Variable scrape_all_sources : string → string → result (list dict).
Variable calculate_match_percentage : option dict → dict → Z.
Variable now_isoformat : string.

Local Abbreviation score := (score_job calculate_match_percentage).
Local Abbreviation ranked := (Routes.ranked calculate_match_percentage).
Local Abbreviation v1 := (search_jobs scrape_all_sources now_isoformat).
Local Abbreviation v2 :=
  (search_jobs_realtime scrape_all_sources calculate_match_percentage
     now_isoformat).



Lemma truthy_spec (resume_data : option dict) :
  truthy resume_data = true ↔ ∃ r, resume_data = Some r ∧ r ≠ ∅.
Proof.
  destruct resume_data as [r|]; simpl.
  - rewrite negb_true_iff, bool_decide_eq_false. split.
    + intros H. by exists r.
    + by intros (r' & [= <-] & H).
  - split; [done|]. by intros (r & [=] & _).
Qed.

Lemma match_percentage_score rd (job : dict) :
  match_percentage (score rd job) = Some (calculate_match_percentage rd job).
Proof.
  unfold match_percentage, score_job. by rewrite lookup_insert_eq.
Qed.

Lemma score_other_fields rd (job : dict) (k : string) :
  k ≠ MATCH_PERCENTAGE → score rd job !! k = job !! k.
Proof. intros Hk. unfold score_job. by rewrite lookup_insert_ne. Qed.

Lemma keys_of_scored rd (jobs : list dict) :
  mapM match_percentage_key (score rd <$> jobs)
  = Ok (calculate_match_percentage rd <$> jobs).
Proof.
  induction jobs as [|job jobs IH]; [done|].
  rewrite fmap_cons. simpl. rewrite IH.
  unfold match_percentage_key at 1, getitem, score_job at 1.
  by rewrite lookup_insert_eq.
Qed.

Lemma sorted_scored rd (jobs : list dict) :
  sorted match_percentage_key true (score rd <$> jobs) = Ok (ranked rd jobs).
Proof. unfold sorted. by rewrite keys_of_scored. Qed.


Lemma decorated_scored rd (jobs : list dict) :
  Forall decorated_ok
    (zip (calculate_match_percentage rd <$> jobs) (score rd <$> jobs)).
Proof.
  induction jobs as [|job jobs IH]; [constructor|].
  rewrite !fmap_cons. simpl. constructor; [|done].
  apply match_percentage_score.
Qed.

Lemma undecorate_scored rd (jobs : list dict) :
  (zip (calculate_match_percentage rd <$> jobs) (score rd <$> jobs)).*2
  = score rd <$> jobs.
Proof. apply snd_zip. by rewrite !length_fmap. Qed.

Lemma ranked_perm rd jobs : ranked rd jobs ≡ₚ score rd <$> jobs.
Proof.
  unfold ranked. rewrite sort_descending_perm. by rewrite undecorate_scored.
Qed.

Lemma ranked_length rd jobs : length (ranked rd jobs) = length jobs.
Proof. by rewrite ranked_perm, length_fmap. Qed.

Lemma undecorate_sorted (ds : list (Z * dict)) :
  Forall decorated_ok ds → StronglySorted key_ge ds →
  StronglySorted ranks_before ds.*2.
Proof.
  intros Hok Hs. induction Hs as [|p ds Hs IH Hp]; [constructor|].
  apply Forall_cons in Hok as [Hp_ok Hok].
  rewrite fmap_cons. constructor; [by apply IH|].
  apply Forall_fmap. rewrite Forall_forall in Hp, Hok |- *.
  intros q Hq. unfold ranks_before. simpl.
  rewrite Hp_ok, (Hok q Hq). exact (Hp q Hq).
Qed.

Lemma undecorate_filter (s : Z) (ds : list (Z * dict)) :
  Forall decorated_ok ds →
  filter (λ job, match_percentage job = Some s) ds.*2
  = (filter (λ p, p.1 = s) ds).*2.
Proof.
  induction 1 as [|p ds Hp _ IH]; [done|].
  rewrite fmap_cons, !filter_cons, IH. unfold decorated_ok in Hp.
  destruct (decide (p.1 = s)) as [Hs|Hs].
  - rewrite decide_True by congruence. done.
  - rewrite decide_False by congruence. done.
Qed.

Lemma ranked_sorted rd jobs : StronglySorted ranks_before (ranked rd jobs).
Proof.
  apply undecorate_sorted; [|apply sort_descending_sorted].
  eapply Permutation_Forall; [|apply decorated_scored].
  symmetry. apply sort_descending_perm.
Qed.

Lemma ranked_stable rd jobs (s : Z) :
  filter (λ job, match_percentage job = Some s) (ranked rd jobs)
  = filter (λ job, match_percentage job = Some s) (score rd <$> jobs).
Proof.
  unfold ranked. rewrite undecorate_filter.
  - rewrite sort_descending_stable, <- undecorate_filter by apply decorated_scored.
    by rewrite undecorate_scored.
  - eapply Permutation_Forall; [|apply decorated_scored].
    symmetry. apply sort_descending_perm.
Qed.

Lemma ranked_all_scored rd jobs :
  Forall (λ job, ∃ s, match_percentage job = Some s) (ranked rd jobs).
Proof.
  eapply Permutation_Forall; [symmetry; apply ranked_perm|].
  apply Forall_fmap, Forall_forall. intros job _. simpl.
  eexists. apply match_percentage_score.
Qed.

(** The three paths of the real-time endpoint. *)
Lemma v2_raise t loc rd e :
  scrape_all_sources t loc = Raise e →
  v2 t loc rd
  = <["success" := RBool false]>
    (<["error" := RStr (exn_str e)]> (<["jobs" := RJobs []]> ∅)).
Proof. intros H. unfold search_jobs_realtime, mbind, result_bind. by rewrite H. Qed.

Lemma v2_matched t loc rd jobs :
  scrape_all_sources t loc = Ok jobs → truthy rd = true →
  v2 t loc rd
  = <["success" := RBool true]>
    (<["jobs" := RJobs (ranked rd jobs)]>
    (<["total" := RInt (Z.of_nat (length (ranked rd jobs)))]>
    (<["timestamp" := RStr now_isoformat]> ∅))).
Proof.
  intros H Hrd. unfold search_jobs_realtime, mbind, result_bind.
  rewrite H, Hrd. simpl. by rewrite sorted_scored.
Qed.

Lemma v2_unmatched t loc rd jobs :
  scrape_all_sources t loc = Ok jobs → truthy rd = false →
  v2 t loc rd
  = <["success" := RBool true]>
    (<["jobs" := RJobs jobs]>
    (<["total" := RInt (Z.of_nat (length jobs))]>
    (<["timestamp" := RStr now_isoformat]> ∅))).
Proof.
  intros H Hrd. unfold search_jobs_realtime, mbind, result_bind.
  by rewrite H, Hrd.
Qed.

Lemma v1_raise t city e :
  scrape_all_sources t city = Raise e →
  v1 t city
  = <["success" := RBool true]>
    (<["jobs" := RJobs []]>
    (<["count" := RInt 0]>
    (<["error" := RStr "Real job sources temporarily unavailable"]> ∅))).
Proof. intros H. unfold search_jobs, mbind, result_bind. by rewrite H. Qed.

Lemma v1_ok t city jobs :
  scrape_all_sources t city = Ok jobs →
  v1 t city
  = <["success" := RBool true]>
    (<["jobs" := RJobs jobs]>
    (<["count" := RInt (Z.of_nat (length jobs))]>
    (<["sources" := RStrs ["Indeed"; "LinkedIn"; "Naukri"; "Glassdoor"]]>
    (<["timestamp" := RStr now_isoformat]> ∅)))).
Proof. intros H. unfold search_jobs, mbind, result_bind. by rewrite H. Qed.

End Facts.
End RouteFacts.

(** ** Text normalisation *)

Module TextFacts.
Import Text.

Lemma append_cons c a b : String c a +:+ b = String c (a +:+ b).
Proof. reflexivity. Qed.

Lemma append_nil_l b : "" +:+ b = b.
Proof. reflexivity. Qed.

Lemma append_nil_r a : a +:+ "" = a.
Proof. induction a as [|c a IH]; [done|]. by rewrite append_cons, IH. Qed.

Lemma append_assoc a b c : (a +:+ b) +:+ c = a +:+ b +:+ c.
Proof. induction a as [|x a IH]; [done|]. by rewrite !append_cons, IH. Qed.

(** *** Case *)

Lemma is_upper_spec c :
  is_upper c = true ↔ (65 <= nat_of_ascii c <= 90)%nat.
Proof.
  unfold is_upper. rewrite andb_true_iff, !Nat.leb_le. done.
Qed.

Lemma lower_ascii_upper c :
  (65 <= nat_of_ascii c <= 90)%nat →
  nat_of_ascii (lower_ascii c) = (nat_of_ascii c + 32)%nat.
Proof.
  intros H. unfold lower_ascii. rewrite (proj2 (is_upper_spec c) H).
  apply nat_ascii_embedding. lia.
Qed.

Lemma lower_ascii_other c :
  ¬ (65 <= nat_of_ascii c <= 90)%nat → lower_ascii c = c.
Proof.
  intros H. unfold lower_ascii. destruct (is_upper c) eqn:E; [|done].
  by apply is_upper_spec in E.
Qed.

Lemma nat_of_ascii_inj c d : nat_of_ascii c = nat_of_ascii d → c = d.
Proof.
  intros H. rewrite <- (ascii_nat_embedding c), <- (ascii_nat_embedding d).
  by rewrite H.
Qed.

Lemma same_letter_lower c d : same_letter c d ↔ lower_ascii c = lower_ascii d.
Proof.
  split.
  - intros [->|[[Hc Hd]|[Hd Hc]]]; [done| |]; apply nat_of_ascii_inj.
    + rewrite (lower_ascii_upper c Hc), (lower_ascii_other d); [done|lia].
    + rewrite (lower_ascii_upper d Hd), (lower_ascii_other c); [done|lia].
  - intros H. apply (f_equal nat_of_ascii) in H. unfold same_letter.
    destruct (decide (65 <= nat_of_ascii c <= 90)%nat) as [Hc|Hc];
      destruct (decide (65 <= nat_of_ascii d <= 90)%nat) as [Hd|Hd].
    + rewrite (lower_ascii_upper c Hc), (lower_ascii_upper d Hd) in H.
      left. apply nat_of_ascii_inj. lia.
    + rewrite (lower_ascii_upper c Hc), (lower_ascii_other d Hd) in H.
      right. left. split; [done|]. by rewrite H.
    + rewrite (lower_ascii_other c Hc), (lower_ascii_upper d Hd) in H.
      right. right. done.
    + rewrite (lower_ascii_other c Hc), (lower_ascii_other d Hd) in H.
      left. by apply nat_of_ascii_inj.
Qed.

(** Two strings have the same lower-case form exactly when they differ in the
    case of their letters at most. *)
Lemma same_ignoring_case_lowercase a b :
  same_ignoring_case a b ↔ lowercase a = lowercase b.
Proof.
  split.
  - induction 1 as [|c d a b Hcd _ IH]; [done|]. simpl.
    by rewrite (proj1 (same_letter_lower c d) Hcd), IH.
  - revert b. induction a as [|c a IH]; intros [|d b]; simpl; try done.
    + intros _. constructor.
    + intros [= Hcd Hab]. constructor; [by apply same_letter_lower|by apply IH].
Qed.

Lemma lowercase_app a b : lowercase (a +:+ b) = lowercase a +:+ lowercase b.
Proof.
  induction a as [|c a IH]; [done|]. rewrite append_cons. simpl.
  by rewrite IH, append_cons.
Qed.

Lemma lowercase_join sep l :
  lowercase (join sep l) = join (lowercase sep) (lowercase <$> l).
Proof.
  induction l as [|a [|b l] IH]; [done..|].
  change (join sep (a :: b :: l)) with (a +:+ sep +:+ join sep (b :: l)).
  rewrite !lowercase_app, IH. done.
Qed.

Lemma lower_ascii_space c : is_space (lower_ascii c) = is_space c.
Proof.
  destruct (decide (65 <= nat_of_ascii c <= 90)%nat) as [Hc|Hc].
  - unfold is_space. rewrite (lower_ascii_upper c Hc).
    rewrite (proj2 (Nat.eqb_neq _ 32)) by lia.
    rewrite (proj2 (Nat.eqb_neq (nat_of_ascii c) 32)) by lia.
    rewrite (proj2 (Nat.leb_gt (nat_of_ascii c + 32) 13)) by lia.
    rewrite (proj2 (Nat.leb_gt (nat_of_ascii c) 13)) by lia.
    by rewrite !andb_false_r.
  - by rewrite lower_ascii_other.
Qed.

Lemma lowercase_word w : word w → word (lowercase w).
Proof.
  intros [Hn Hw]. split; [by destruct w|].
  clear Hn. induction w as [|c w IH]; [done|]. simpl in *.
  apply andb_true_iff in Hw as [Hc Hw].
  by rewrite lower_ascii_space, Hc, IH.
Qed.

(** *** Whitespace *)

Lemma split_go_blank gap rest :
  blank gap →
  List.filter nonempty (split_go is_space (gap +:+ rest) [])
  = List.filter nonempty (split_go is_space rest []).
Proof.
  unfold blank. induction gap as [|c gap IH]; [done|].
  intros [Hc Hg]%andb_true_iff. rewrite append_cons. simpl. rewrite Hc.
  simpl. by apply IH.
Qed.

Lemma string_of_rev_app w cur :
  string_of_list_ascii (rev (rev (list_ascii_of_string w) ++ cur))
  = string_of_list_ascii (rev cur) +:+ w.
Proof.
  rewrite rev_app_distr, rev_involutive.
  induction (rev cur) as [|c l IH]; simpl.
  - apply string_of_list_ascii_of_string.
  - by rewrite IH.
Qed.

Lemma split_go_word w rest cur :
  all_chars (λ c, negb (is_space c)) w = true →
  split_go is_space (w +:+ rest) cur
  = split_go is_space rest (rev (list_ascii_of_string w) ++ cur).
Proof.
  revert cur. induction w as [|c w IH]; intros cur; [done|].
  intros [Hc Hw]%andb_true_iff. rewrite append_cons. simpl.
  apply negb_true_iff in Hc. rewrite Hc, (IH _ Hw).
  by rewrite <- app_assoc.
Qed.

Lemma split_go_starts_blank rest cur :
  starts_blank rest →
  List.filter nonempty (split_go is_space rest cur)
  = List.filter nonempty
      (string_of_list_ascii (rev cur) :: split_go is_space rest []).
Proof.
  destruct rest as [|c rest]; simpl.
  - intros _. by destruct (nonempty (string_of_list_ascii (rev cur))).
  - intros ->. simpl. done.
Qed.

(** [words] finds the words of a text, whatever the whitespace around
    them. *)
Lemma words_spaced ws s : spaced ws s → words s = ws.
Proof.
  unfold words, split. induction 1 as [gap Hgap|gap w ws rest Hgap Hw Hrest _ IH].
  - rewrite <- (append_nil_r gap), split_go_blank; done.
  - rewrite split_go_blank by done. destruct Hw as [Hne Hw].
    rewrite split_go_word by done. rewrite split_go_starts_blank by done.
    rewrite app_nil_r, rev_involutive, string_of_list_ascii_of_string.
    simpl. rewrite Hne. by rewrite IH.
Qed.

(** Every text is made of words and whitespace. *)
Lemma every_text_spaced s : ∃ ws, spaced ws s.
Proof.
  induction s as [|c s [ws Hs]].
  - exists []. by constructor.
  - destruct (is_space c) eqn:Ec.
    + destruct Hs as [gap Hgap|gap w ws rest Hgap Hw Hrest Hs].
      * exists []. constructor. unfold blank in *. simpl. by rewrite Ec.
      * exists (w :: ws).
        change (String c (gap +:+ w +:+ rest))
          with (String c gap +:+ w +:+ rest).
        constructor; [|done..]. unfold blank in *. simpl. by rewrite Ec.
    + assert (Hc : word (String c "")).
      { split; [done|]. simpl. by rewrite Ec. }
      destruct Hs as [gap Hgap|gap w ws rest Hgap Hw Hrest Hs].
      * exists [String c ""].
        change (String c gap) with ("" +:+ String c "" +:+ gap).
        constructor; [done|done| |by constructor].
        destruct gap as [|d gap]; [done|]. simpl. unfold blank in Hgap.
        simpl in Hgap. by apply andb_true_iff in Hgap as [? _].
      * destruct gap as [|d gap].
        -- exists (String c w :: ws).
           change (String c ("" +:+ w +:+ rest))
             with ("" +:+ String c w +:+ rest).
           constructor; [done| |done..].
           destruct Hw as [_ Hw]. split; [done|]. simpl. by rewrite Ec.
        -- exists (String c "" :: w :: ws).
           change (String c (String d gap +:+ w +:+ rest))
             with ("" +:+ String c "" +:+ (String d gap +:+ w +:+ rest)).
           constructor; [done|done| |by constructor].
           simpl. unfold blank in Hgap. simpl in Hgap.
           by apply andb_true_iff in Hgap as [? _].
Qed.

(** What [normalize_text] gives: the words of the text in lower case, one
    space between them. *)
Lemma normalize_text_spaced ws s :
  spaced ws s → normalize_text s = join " " (lowercase <$> ws).
Proof.
  intros H. unfold normalize_text. by rewrite (words_spaced ws s H), lowercase_join.
Qed.

Lemma join_word_inj (wa wb : list string) :
  Forall word wa → Forall word wb →
  join " " wa = join " " wb → wa = wb.
Proof.
  assert (Hcut : ∀ a b ra rb,
            word a → word b → starts_blank ra → starts_blank rb →
            a +:+ ra = b +:+ rb → a = b ∧ ra = rb).
  { induction a as [|c a IH]; intros b ra rb [Ha1 Ha2] [Hb1 Hb2] Hra Hrb;
      [done|].
    destruct b as [|d b]; [done|]. rewrite !append_cons. intros [= -> H].
    simpl in Ha2, Hb2.
    apply andb_true_iff in Ha2 as [Hc Ha2].
    apply andb_true_iff in Hb2 as [_ Hb2].
    destruct a as [|c' a], b as [|d' b].
    - rewrite !append_nil_l in H. by subst.
    - rewrite append_nil_l, append_cons in H. subst ra. simpl in Hra.
      simpl in Hb2. by rewrite Hra in Hb2.
    - rewrite append_nil_l, append_cons in H. subst rb. simpl in Hrb.
      simpl in Ha2. by rewrite Hrb in Ha2.
    - destruct (IH (String d' b) ra rb) as [-> ->]; done. }
  intros Ha. revert wb. induction Ha as [|a wa Hwa Ha IH]; intros wb Hb.
  - destruct Hb as [|b wb [Hb _] Hwb]; [done|].
    destruct wb as [|b' wb]; simpl; [by destruct b|].
    rewrite <- (append_nil_l (b +:+ _)). by destruct b.
  - destruct Hb as [|b wb Hwb Hb]; simpl.
    { destruct Hwa as [Hwa _]. destruct wa as [|a' wa]; [by destruct a|].
      by destruct a. }
    assert (Hshape : ∀ w l, join " " (w :: l)
                            = w +:+ match l with
                                    | [] => ""
                                    | _ => " " +:+ join " " l
                                    end).
    { intros w [|w' l]; [by rewrite append_nil_r|done]. }
    change (join " " (a :: wa) = join " " (b :: wb) → a :: wa = b :: wb).
    rewrite !Hshape. intros H.
    apply Hcut in H as [-> H]; [|done|done|by destruct wa|by destruct wb].
    f_equal. apply IH; [done|].
    destruct wa as [|a' wa], wb as [|b' wb]; try done.
    rewrite !append_cons, !append_nil_l in H. by injection H.
Qed.

Lemma spaced_words ws s : spaced ws s → Forall word ws.
Proof. induction 1; by constructor. Qed.

Lemma same_words_lowercase wa wb :
  Forall2 same_ignoring_case wa wb ↔ lowercase <$> wa = lowercase <$> wb.
Proof.
  split.
  - induction 1 as [|x y wa wb Hxy _ IH]; [done|].
    rewrite !fmap_cons. f_equal; [by apply same_ignoring_case_lowercase|done].
  - revert wb. induction wa as [|x wa IH]; intros [|y wb]; try done.
    rewrite !fmap_cons. intros [= Hxy H]. constructor.
    + by apply same_ignoring_case_lowercase.
    + by apply IH.
Qed.

(** Two texts match exactly when their normal forms are equal. *)
Lemma text_matches_normalize a b :
  text_matches a b ↔ normalize_text a = normalize_text b.
Proof.
  split.
  - intros (wa & wb & Ha & Hb & Hab).
    rewrite (normalize_text_spaced wa a Ha), (normalize_text_spaced wb b Hb).
    f_equal. by apply same_words_lowercase.
  - destruct (every_text_spaced a) as [wa Ha].
    destruct (every_text_spaced b) as [wb Hb].
    rewrite (normalize_text_spaced wa a Ha), (normalize_text_spaced wb b Hb).
    intros H. exists wa, wb. split_and!; [done..|].
    apply same_words_lowercase. apply join_word_inj; [| |done].
    + apply Forall_fmap. eapply Forall_impl; [by eapply spaced_words|].
      intros w Hw. by apply lowercase_word.
    + apply Forall_fmap. eapply Forall_impl; [by eapply spaced_words|].
      intros w Hw. by apply lowercase_word.
Qed.

End TextFacts.

(** ** URL normalisation *)

Module UrlFacts.
Import Text Core TextFacts.

Lemma lacks_cons stop c s :
  lacks stop (String c s) ↔ stop c = false ∧ lacks stop s.
Proof.
  unfold lacks. simpl. by rewrite andb_true_iff, negb_true_iff.
Qed.

Lemma lacks_app stop a b : lacks stop a → lacks stop b → lacks stop (a +:+ b).
Proof.
  intros Ha Hb. induction a as [|c a IH]; [done|].
  rewrite append_cons. apply lacks_cons in Ha as [Hc Ha].
  apply lacks_cons. split; [done|by apply IH].
Qed.

Lemma lacks_weaken (stop stop' : ascii → bool) s :
  (∀ c, stop' c = true → stop c = true) → lacks stop s → lacks stop' s.
Proof.
  intros Himp. induction s as [|c s IH]; [done|].
  rewrite !lacks_cons. intros [Hc Hs]. split; [|by apply IH].
  destruct (stop' c) eqn:E; [|done]. by rewrite (Himp c E) in Hc.
Qed.

(** [span_until] stops in front of the first stop character. *)
Lemma span_until_app stop a b :
  lacks stop a →
  match b with EmptyString => True | String c _ => stop c = true end →
  span_until stop (a +:+ b) = (a, b).
Proof.
  intros Ha Hb. induction a as [|c a IH].
  - rewrite append_nil_l. destruct b as [|c b]; [done|]. simpl. by rewrite Hb.
  - apply lacks_cons in Ha as [Hc Ha]. rewrite append_cons. simpl.
    by rewrite Hc, (IH Ha).
Qed.

Lemma span_until_lacks stop a : lacks stop a → span_until stop a = (a, "").
Proof.
  intros Ha. rewrite <- (append_nil_r a) at 1. by apply span_until_app.
Qed.

Lemma substring_all s : String.substring 0 (String.length s) s = s.
Proof. induction s as [|c s IH]; [done|]. simpl. by rewrite IH. Qed.

Lemma scheme_char_not_colon c : is_scheme_char c = true → c ≠ ":"%char.
Proof. by intros H ->. Qed.

Lemma cut_at_scheme s rest :
  all_chars is_scheme_char s = true →
  cut_at "://" (s +:+ "://" +:+ rest) = Some (s, rest).
Proof.
  induction s as [|c s IH].
  - intros _. rewrite append_nil_l.
    change ("://" +:+ rest) with (String ":" (String "/" (String "/" rest))).
    destruct rest as [|d rest]; simpl.
    + done.
    + by rewrite substring_all.
  - intros [Hc Hs]%andb_true_iff. rewrite append_cons.
    apply scheme_char_not_colon in Hc.
    change (cut_at "://" (String c (s +:+ "://" +:+ rest)))
      with (if String.prefix "://" (String c (s +:+ "://" +:+ rest))
            then Some ("", String.substring (String.length "://")
                         (String.length (String c (s +:+ "://" +:+ rest))
                          - String.length "://")
                         (String c (s +:+ "://" +:+ rest)))
            else match cut_at "://" (s +:+ "://" +:+ rest) with
                 | Some (a, b) => Some (String c a, b)
                 | None => None
                 end).
    rewrite (IH Hs).
    assert (Hp : String.prefix "://" (String c (s +:+ "://" +:+ rest)) = false).
    { change (String.prefix "://" (String c (s +:+ "://" +:+ rest)))
        with (if ascii_dec ":" c
              then String.prefix "//" (s +:+ "://" +:+ rest) else false).
      destruct (ascii_dec ":" c) as [E|E]; [by subst|done]. }
    by rewrite Hp.
Qed.

Lemma split_go_piece sep w rest cur :
  lacks sep w →
  split_go sep (w +:+ rest) cur
  = split_go sep rest (rev (list_ascii_of_string w) ++ cur).
Proof.
  revert cur. induction w as [|c w IH]; intros cur; [done|].
  intros [Hc Hw]%lacks_cons. rewrite append_cons. simpl.
  rewrite Hc, (IH _ Hw). by rewrite <- app_assoc.
Qed.

(** Splitting what [join] has put together gives the pieces back. *)
Lemma split_join (sep : ascii) (ps : list string) :
  ps ≠ [] → Forall (lacks (ascii_is sep)) ps →
  split (ascii_is sep) (join (String sep "") ps) = ps.
Proof.
  intros Hne Hps. unfold split.
  induction Hps as [|p ps Hp Hps IH]; [done|]. clear Hne.
  destruct ps as [|p' ps].
  - simpl. rewrite <- (append_nil_r p) at 1. rewrite split_go_piece by done.
    simpl. by rewrite app_nil_r, rev_involutive, string_of_list_ascii_of_string.
  - change (join (String sep "") (p :: p' :: ps))
      with (p +:+ String sep (join (String sep "") (p' :: ps))).
    rewrite split_go_piece by done. simpl.
    unfold ascii_is at 1. rewrite bool_decide_eq_true_2 by done.
    rewrite app_nil_r, rev_involutive, string_of_list_ascii_of_string.
    f_equal. by apply IH.
Qed.

Lemma lacks_join stop (sep : ascii) ps :
  stop sep = false → Forall (lacks stop) ps →
  lacks stop (join (String sep "") ps).
Proof.
  intros Hsep. induction 1 as [|p ps Hp Hps IH]; [done|].
  destruct ps as [|p' ps]; [done|].
  change (join (String sep "") (p :: p' :: ps))
    with (p +:+ String sep (join (String sep "") (p' :: ps))).
  apply lacks_app; [done|]. apply lacks_cons. split; [done|by apply IH].
Qed.

Lemma normalize_authority_render userinfo host :
  (∀ u, userinfo = Some u → lacks (ascii_is "@") u) →
  lacks (ascii_is "@") host →
  normalize_authority (render_authority userinfo host)
  = render_authority userinfo (lowercase host).
Proof.
  intros Hu Hh. unfold normalize_authority, render_authority.
  destruct userinfo as [u|].
  - change (u +:+ "@" +:+ host) with (u +:+ String "@" host).
    rewrite span_until_app; [done|by apply Hu|done].
  - by rewrite span_until_lacks.
Qed.

(** What [normalize_url] does to an absolute URL: scheme and host in lower
    case, the tracking parameters gone, the rest as it was. *)
Lemma normalize_url_render p :
  well_formed p → normalize_url (render p) = render (normalised p).
Proof.
  destruct p as [scheme userinfo host path params fragment].
  intros (Hne & Hscheme & Hu & Hh & Hstart & Hpath & Hparams). simpl in *.
  unfold normalize_url, render. simpl.
  rewrite cut_at_scheme by done. rewrite Hne, Hscheme. simpl.
  set (query := render_query params).
  set (frag := render_fragment fragment).
  assert (Hfrag : match frag with
                  | EmptyString => True
                  | String c _ => ascii_is "#" c = true
                  end) by (by destruct fragment).
  assert (Hquery : match query with
                   | EmptyString => True
                   | String c _ => ascii_is "?" c = true
                   end) by (by destruct params).
  assert (Hq_hash : lacks (ascii_is "#") query).
  { subst query. destruct params as [|p ps]; [done|].
    change (lacks (ascii_is "#") (String "?" (join "&" (p :: ps)))).
    apply lacks_cons. split; [done|]. apply lacks_join; [done|].
    eapply Forall_impl; [exact Hparams|]. intros s.
    apply lacks_weaken. intros c Hc; cbv beta; by rewrite Hc, ?orb_true_r. }
  (* the authority *)
  rewrite (span_until_app ends_authority
             (render_authority userinfo host) (path +:+ query +:+ frag)).
  2: { unfold render_authority. destruct userinfo as [u|].
       - apply lacks_app; [|apply lacks_app; [done|]].
         + eapply lacks_weaken; [|by apply Hu]. intros c Hc; cbv beta; by rewrite Hc, ?orb_true_r.
         + eapply lacks_weaken; [|exact Hh]. intros c Hc; cbv beta; by rewrite Hc, ?orb_true_r.
       - eapply lacks_weaken; [|exact Hh]. intros c Hc; cbv beta; by rewrite Hc, ?orb_true_r. }
  2: { destruct Hstart as [->|[rest ->]]; [|done]. rewrite append_nil_l.
       destruct query as [|c q].
       - rewrite append_nil_l. destruct frag as [|c f]; [done|].
         unfold ends_authority. by rewrite Hfrag, !orb_true_r.
       - rewrite append_cons. unfold ends_authority.
         by rewrite Hquery, orb_true_r. }
  (* the fragment *)
  rewrite <- (append_assoc path query frag).
  rewrite (span_until_app (ascii_is "#") (path +:+ query) frag).
  2: { apply lacks_app; [|done]. eapply lacks_weaken; [|exact Hpath].
       intros c Hc; cbv beta; by rewrite Hc, ?orb_true_r. }
  2: done.
  (* the path and the query *)
  rewrite (span_until_app (ascii_is "?") path query).
  2: { eapply lacks_weaken; [|exact Hpath]. intros c Hc; cbv beta; by rewrite Hc, ?orb_true_r. }
  2: done.
  rewrite normalize_authority_render.
  2: { intros u Hu'. eapply lacks_weaken; [|by apply Hu].
       intros c Hc; cbv beta; by rewrite Hc, ?orb_true_r. }
  2: { eapply lacks_weaken; [|exact Hh]. intros c Hc; cbv beta; by rewrite Hc, ?orb_true_r. }
  rewrite append_assoc. repeat f_equal.
  subst query. destruct params as [|p ps]; [done|].
  change (List.filter keeps_param (split (ascii_is "&") (join "&" (p :: ps)))
          = List.filter keeps_param (p :: ps)).
  rewrite (split_join "&"); [done|done|].
  eapply Forall_impl; [exact Hparams|]. intros s.
  apply lacks_weaken. intros c Hc; cbv beta; by rewrite Hc, ?orb_true_r.
Qed.

(** URLs that match have the same normal form. *)
Lemma url_matches_normalize u v :
  url_matches u v → normalize_url u = normalize_url v.
Proof.
  intros (p & q & Hp & Hq & -> & -> & Hs & Hu & Hh & Hpath & Hparams & Hf).
  rewrite !normalize_url_render by done. f_equal.
  destruct p, q. unfold normalised. simpl in *. subst.
  apply same_ignoring_case_lowercase in Hs, Hh. by rewrite Hs, Hh, Hparams.
Qed.

End UrlFacts.

(** ** The deduplicator *)

Module DedupFacts.
Import Core.



Lemma is_duplicate_refl p : is_duplicate p p = true.
Proof. unfold is_duplicate. by rewrite bool_decide_eq_true_2. Qed.

Lemma is_duplicate_sym p q : is_duplicate p q = is_duplicate q p.
Proof.
  unfold is_duplicate. f_equal; apply bool_decide_ext; split; congruence.
Qed.

Lemma touches_spec j g :
  touches j g ↔ ∃ a, a ∈ members g ∧ is_duplicate j a = true.
Proof.
  unfold touches. rewrite Is_true_true, existsb_exists.
  by setoid_rewrite list_elem_of_In.
Qed.

Lemma not_touches j g a :
  ¬ touches j g → a ∈ members g → is_duplicate j a = false.
Proof.
  intros Hn Ha. destruct (is_duplicate j a) eqn:E; [|done].
  destruct Hn. apply touches_spec. eauto.
Qed.

Lemma elem_of_concat {B} (x : B) (ls : list (list B)) :
  x ∈ concat ls ↔ ∃ l, l ∈ ls ∧ x ∈ l.
Proof.
  rewrite list_elem_of_In, in_concat.
  by setoid_rewrite list_elem_of_In.
Qed.

Lemma elem_of_all_members x gs :
  x ∈ all_members gs ↔ ∃ g, g ∈ gs ∧ x ∈ members g.
Proof.
  unfold all_members. rewrite elem_of_concat. split.
  - intros (l & Hl & Hx). apply list_elem_of_fmap in Hl as (g & -> & Hg). eauto.
  - intros (g & Hg & Hx). exists (members g). split; [|done].
    apply list_elem_of_fmap. eauto.
Qed.

Lemma separated_sym g h : separated g h → separated h g.
Proof. intros H a b Ha Hb. rewrite is_duplicate_sym. by apply H. Qed.

(** *** Every posting lands in exactly one group *)

Lemma all_members_add j gs : all_members (add_posting j gs) ≡ₚ j :: all_members gs.
Proof.
  unfold all_members. induction gs as [|g gs IH]; simpl; [done|].
  destruct (touches j g) eqn:E.
  - rewrite fmap_cons, !concat_cons. unfold members at 1. simpl.
    change (g.1 :: g.2) with (members g).
    rewrite <- (filter_app_complement (λ h, touches j h) gs) at 3.
    rewrite fmap_app, concat_app.
    symmetry. etrans; [apply Permutation_swap|].
    rewrite <- !app_assoc. simpl. apply Permutation_cons; [done|].
    rewrite !app_assoc. apply Permutation_middle.
  - rewrite fmap_cons, concat_cons, IH.
    symmetry. apply (Permutation_middle (members g)).
Qed.

Lemma all_members_from l gs :
  all_members (fold_left (λ gs j, add_posting j gs) l gs) ≡ₚ all_members gs ++ l.
Proof.
  revert gs. induction l as [|j l IH]; intros gs; simpl.
  - by rewrite app_nil_r.
  - rewrite IH, all_members_add. simpl. apply Permutation_middle.
Qed.

Lemma all_members_groups l : all_members (duplicate_groups l) ≡ₚ l.
Proof. unfold duplicate_groups. by rewrite all_members_from. Qed.

(** *** Groups stay separated *)

Lemma Sep_sublist gs1 gs2 : gs1 `sublist_of` gs2 → Sep gs2 → Sep gs1.
Proof.
  induction 1 as [|g gs1 gs2 Hsub IH|g gs1 gs2 Hsub IH]; simpl; [done| |].
  - intros [Hg Hs]. split; [|by apply IH].
    rewrite Forall_forall in Hg |- *.
    intros h Hh. apply Hg. by eapply elem_of_sublist.
  - intros [_ Hs]. by apply IH.
Qed.

Lemma Sep_pair gs g h :
  Sep gs → g ∈ gs → h ∈ gs → g ≠ h → separated g h.
Proof.
  induction gs as [|g0 gs IH]; simpl; [by intros _ ?%elem_of_nil|].
  intros [Hg0 Hs] Hg Hh Hne. rewrite Forall_forall in Hg0.
  apply elem_of_cons in Hg as [->|Hg], Hh as [->|Hh].
  - done.
  - by apply Hg0.
  - by apply separated_sym, Hg0.
  - by apply IH.
Qed.

Lemma Sep_add j gs : Sep gs → Sep (add_posting j gs).
Proof.
  induction gs as [|g gs IH]; simpl; [done|].
  intros [Hg Hs]. rewrite Forall_forall in Hg.
  destruct (touches j g) eqn:E; simpl.
  - split; [|eapply Sep_sublist; [apply sublist_filter|done]].
    apply Forall_forall. intros h [Hh_out Hh]%list_elem_of_filter a b Ha Hb.
    unfold members in Ha. simpl in Ha.
    rewrite app_comm_cons in Ha.
    apply elem_of_app in Ha as [Ha|Ha]; [by apply (Hg h)|].
    apply elem_of_app in Ha as [Ha|Ha].
    + apply elem_of_concat in Ha as (l & Hl & Ha).
      apply list_elem_of_fmap in Hl as (h' & -> & Hh').
      apply list_elem_of_filter in Hh' as [Hh'_in Hh'].
      apply (Sep_pair gs h' h); [done..| |done|done]. by intros ->.
    + apply list_elem_of_singleton in Ha as ->. by eapply not_touches.
  - split; [|by apply IH].
    apply Forall_forall. intros h Hh a b Ha Hb.
    assert (Hb' : b ∈ all_members (add_posting j gs))
      by (apply elem_of_all_members; eauto).
    rewrite all_members_add in Hb'.
    apply elem_of_cons in Hb' as [->|Hb'].
    + rewrite is_duplicate_sym. eapply not_touches; [|done].
      rewrite E. intros [].
    + apply elem_of_all_members in Hb' as (h0 & Hh0 & Hb').
      by apply (Hg h0).
Qed.

Lemma Sep_groups l : Sep (duplicate_groups l).
Proof.
  unfold duplicate_groups.
  assert (H : ∀ gs, Sep gs → Sep (fold_left (λ gs j, add_posting j gs) l gs)).
  { induction l as [|j l IH]; intros gs Hs; simpl; [done|].
    by apply IH, Sep_add. }
  by apply H.
Qed.

Lemma same_group gs g h a b :
  Sep gs → g ∈ gs → h ∈ gs → a ∈ members g → b ∈ members h →
  is_duplicate a b = true → g = h.
Proof.
  intros Hs Hg Hh Ha Hb Hdup.
  destruct (decide (g = h)) as [|Hne]; [done|].
  by rewrite (Sep_pair gs g h Hs Hg Hh Hne a b Ha Hb) in Hdup.
Qed.

(** *** The survivor keeps the identity of the first posting *)

Lemma survivor_url_key g : url_key (survivor g) = url_key g.1.
Proof. done. Qed.

Lemma survivor_listing_key g : listing_key (survivor g) = listing_key g.1.
Proof. done. Qed.

Lemma is_duplicate_survivor g h :
  is_duplicate (survivor g) (survivor h) = is_duplicate g.1 h.1.
Proof. done. Qed.

Lemma identity_of_survivor g : identity_of (survivor g) = identity_of g.1.
Proof. done. Qed.

Lemma survivor_alone p : survivor (alone p) = p.
Proof. by destruct p. Qed.

Lemma head_in_members (g : group) : g.1 ∈ members g.
Proof. apply list_elem_of_here. Qed.

(** *** Deduplicating a list without duplicates changes nothing *)

Lemma Apart_survivors gs : Sep gs → Apart (survivor <$> gs).
Proof.
  induction gs as [|g gs IH]; simpl; [done|].
  intros [Hg Hs]. split; [|by apply IH].
  apply Forall_fmap. eapply Forall_impl; [exact Hg|].
  intros h Hsep. simpl. rewrite is_duplicate_survivor.
  apply Hsep; apply head_in_members.
Qed.

Lemma Apart_app_inv acc j l :
  Apart (acc ++ j :: l) → Forall (λ a, is_duplicate j a = false) acc.
Proof.
  induction acc as [|a acc IH]; simpl; [constructor|].
  intros [Ha Hs]. constructor; [|by apply IH].
  rewrite is_duplicate_sym. rewrite Forall_forall in Ha. apply Ha.
  apply elem_of_app. right. apply list_elem_of_here.
Qed.

Lemma add_posting_fresh j gs :
  Forall (λ g, ¬ touches j g) gs → add_posting j gs = gs ++ [alone j].
Proof.
  induction 1 as [|g gs Hg _ IH]; simpl; [done|].
  destruct (touches j g); [by destruct Hg|]. by rewrite IH.
Qed.

Lemma not_touches_alone j a : is_duplicate j a = false → ¬ touches j (alone a).
Proof.
  intros H. unfold touches, alone, members. simpl. rewrite H. intros [].
Qed.

Lemma groups_of_apart l acc :
  Apart (acc ++ l) →
  fold_left (λ gs j, add_posting j gs) l (alone <$> acc) = alone <$> (acc ++ l).
Proof.
  revert acc. induction l as [|j l IH]; intros acc Hs; simpl.
  - by rewrite app_nil_r.
  - rewrite add_posting_fresh.
    + replace ((alone <$> acc) ++ [alone j]) with (alone <$> (acc ++ [j]))
        by (by rewrite fmap_app).
      rewrite IH; rewrite <- app_assoc; done.
    + apply Forall_fmap. eapply Forall_impl; [by eapply Apart_app_inv|].
      intros a Ha. by apply not_touches_alone.
Qed.

Lemma dedup_apart l : Apart l → dedup l = l.
Proof.
  intros Hs. unfold dedup, duplicate_groups.
  change (@nil group) with (alone <$> []).
  rewrite (groups_of_apart l [] Hs). simpl.
  rewrite <- list_fmap_compose. rewrite <- (list_fmap_id l) at 2.
  apply list_fmap_ext. intros _ p _. apply survivor_alone.
Qed.

Lemma dedup_idempotent l : dedup (dedup l) = dedup l.
Proof. apply dedup_apart, Apart_survivors, Sep_groups. Qed.

(** *** First-seen order *)

Lemma heads_add j gs :
  (add_posting j gs).*1 `sublist_of` gs.*1 ++ [j].
Proof.
  induction gs as [|g gs IH]; simpl; [done|].
  destruct (touches j g); simpl.
  - apply sublist_skip, sublist_inserts_r, fmap_sublist, sublist_filter.
  - by apply sublist_skip.
Qed.

Lemma heads_add_touched j gs :
  Exists (λ g, touches j g) gs → (add_posting j gs).*1 `sublist_of` gs.*1.
Proof.
  induction 1 as [g gs Hg|g gs _ IH]; simpl.
  - destruct (touches j g); [|done]. simpl.
    apply sublist_skip, fmap_sublist, sublist_filter.
  - destruct (touches j g); simpl.
    + apply sublist_skip, fmap_sublist, sublist_filter.
    + by apply sublist_skip.
Qed.

Lemma heads_from l gs l0 :
  gs.*1 `sublist_of` l0 →
  (fold_left (λ gs j, add_posting j gs) l gs).*1 `sublist_of` l0 ++ l.
Proof.
  revert gs l0. induction l as [|j l IH]; intros gs l0 H; simpl.
  - by rewrite app_nil_r.
  - replace (l0 ++ j :: l) with ((l0 ++ [j]) ++ l) by (by rewrite <- app_assoc).
    apply IH.
    etrans; [apply heads_add|]. by apply sublist_app.
Qed.

Lemma heads_groups l : (duplicate_groups l).*1 `sublist_of` l.
Proof. apply (heads_from l [] []). done. Qed.

Lemma dedup_identities l :
  identity_of <$> dedup l = identity_of <$> (duplicate_groups l).*1.
Proof.
  unfold dedup. rewrite <- !list_fmap_compose. by apply list_fmap_ext.
Qed.

Lemma dedup_first_seen l :
  identity_of <$> dedup l `sublist_of` identity_of <$> l.
Proof. rewrite dedup_identities. apply fmap_sublist, heads_groups. Qed.

Lemma duplicate_groups_snoc l j :
  duplicate_groups (l ++ [j]) = add_posting j (duplicate_groups l).
Proof. unfold duplicate_groups. by rewrite fold_left_app. Qed.

(** A posting that duplicates nothing seen so far becomes the last
    survivor, as it is. *)
Lemma dedup_snoc_fresh l j :
  Forall (λ p, is_duplicate j p = false) l → dedup (l ++ [j]) = dedup l ++ [j].
Proof.
  intros H. unfold dedup. rewrite duplicate_groups_snoc, add_posting_fresh.
  - rewrite fmap_app. f_equal. change ([survivor (alone j)] = [j]).
    by rewrite survivor_alone.
  - apply Forall_forall. intros g Hg [a [Ha Hdup]]%touches_spec.
    rewrite Forall_forall in H. rewrite H in Hdup; [done|].
    rewrite <- (all_members_groups l). apply elem_of_all_members. eauto.
Qed.

(** A posting that duplicates an earlier one adds no survivor and moves
    none. *)
Lemma dedup_snoc_duplicate l j p :
  p ∈ l → is_duplicate j p = true →
  identity_of <$> dedup (l ++ [j]) `sublist_of` identity_of <$> dedup l.
Proof.
  intros Hp Hdup. rewrite !dedup_identities, duplicate_groups_snoc.
  apply fmap_sublist, heads_add_touched.
  rewrite <- (all_members_groups l) in Hp.
  apply elem_of_all_members in Hp as (g & Hg & Hp).
  apply Exists_exists. exists g. split; [done|].
  apply touches_spec. eauto.
Qed.

(** *** A posting without duplicates around it survives as it is *)




(** *** A group holds postings of one job only *)

#[local] Instance duplicates_in_sym l : Symmetric (duplicates_in l).
Proof.
  intros a b (Ha & Hb & Hd). split_and!; [done..|]. by rewrite is_duplicate_sym.
Qed.






(** *** The survivor loses nothing of its group *)





End DedupFacts.

(** ** The matcher *)

Module MatcherFacts.
Import Core.

Lemma clamp01_bounds x : (0 <= clamp01 x <= 1)%Q.
Proof.
  unfold clamp01.
  destruct (Qle_bool x 0) eqn:E0; [lra|].
  destruct (Qle_bool 1 x) eqn:E1; [lra|].
  assert (¬ (x <= 0)%Q) by (rewrite <- Qle_bool_iff; congruence).
  assert (¬ (1 <= x)%Q) by (rewrite <- Qle_bool_iff; congruence).
  lra.
Qed.

Lemma weighted_sum_bounds cfg r j :
  valid_weights cfg → (0 <= weighted_sum cfg r j <= 1)%Q.
Proof.
  intros (Hs & Ht & He & Hsum). unfold weighted_sum.
  pose proof (clamp01_bounds (skill_overlap r j)).
  pose proof (clamp01_bounds (title_similarity r j)).
  pose proof (clamp01_bounds (experience_fit cfg r j)).
  nra.
Qed.

Lemma round_nearest_bounds x :
  (0 <= x <= 100)%Q → (0 <= round_nearest x <= 100)%Z.
Proof.
  intros [Hlo Hhi]. unfold round_nearest. split.
  - change 0%Z with (Qfloor 0). apply Qfloor_resp_le. lra.
  - change 100%Z with (Qfloor (100 + (1 # 2))). apply Qfloor_resp_le. lra.
Qed.

Lemma match_score_bounds cfg r j :
  valid_weights cfg → (0 <= match_score cfg r j <= 100)%Z.
Proof.
  intros Hw. apply round_nearest_bounds.
  pose proof (weighted_sum_bounds cfg r j Hw). lra.
Qed.

Lemma skill_overlap_empty r j :
  skillsMentioned j = ∅ → skill_overlap r j = 0%Q.
Proof. intros H. unfold skill_overlap. by rewrite H, size_empty. Qed.

Lemma clamp01_zero : clamp01 0 = 0%Q.
Proof. done. Qed.

End MatcherFacts.

(** ** The fetch orchestrator *)

Module OrchestratorFacts.
Import Core DedupFacts.











(** Every collected posting is a member of one group, whose survivor is
    returned. *)
Lemma represented l j :
  j ∈ l →
  ∃ g, g ∈ duplicate_groups l ∧ j ∈ members g ∧ survivor g ∈ dedup l.
Proof.
  intros Hj. rewrite <- (all_members_groups l) in Hj.
  apply elem_of_all_members in Hj as (g & Hg & Hj).
  exists g. split_and!; [done..|]. by apply list_elem_of_fmap_2.
Qed.




End OrchestratorFacts.

(** ** The real-time endpoint when the matcher may raise *)

Module RaisingFacts.
Import Routes SortFacts RouteFacts RaisingRoutes.

Lemma mapM_length {A B} (f : A → result B) (l : list A) (bs : list B) :
  mapM f l = Ok bs → length bs = length l.
Proof.
  revert bs. induction l as [|a l IH]; intros bs; simpl.
  - by intros [= <-].
  - destruct (f a) as [b|e]; simpl; [|done].
    destruct (mapM f l) as [bs'|e]; simpl; [|done].
    intros [= <-]. simpl. by rewrite (IH bs').
Qed.

Lemma mapM_raises {A B} (f : A → result B) (before after : list A) a e :
  Forall (λ y, ∃ b, f y = Ok b) before → f a = Raise e →
  mapM f (before ++ a :: after) = Raise e.
Proof.
  intros Hb Ha. induction Hb as [|y before [b Hy] _ IH]; simpl.
  - by rewrite Ha.
  - by rewrite Hy, IH.
Qed.

Lemma mapM_raise_inv {A B} (f : A → result B) (l : list A) e :
  mapM f l = Raise e →
  ∃ before a after,
    l = before ++ a :: after
    ∧ Forall (λ y, ∃ b, f y = Ok b) before ∧ f a = Raise e.
Proof.
  induction l as [|a l IH]; simpl; [done|].
  destruct (f a) as [b|e'] eqn:Ea; simpl.
  - destruct (mapM f l) as [bs|e'] eqn:El; simpl; [done|].
    intros [= ->]. destruct (IH eq_refl) as (before & x & after & -> & Hb & Hx).
    exists (a :: before), x, after. split_and!; [done| |done].
    constructor; [by eexists|done].
  - intros [= ->]. by exists [], a, l.
Qed.

Lemma sorted_length {A} (key : A → result Z) (l out : list A) :
  sorted key true l = Ok out → length out = length l.
Proof.
  unfold sorted. destruct (mapM key l) as [keys|e] eqn:E; simpl; [|done].
  intros [= <-]. apply mapM_length in E.
  rewrite length_fmap, length_reverse, sort_by_key_perm, length_reverse.
  rewrite length_zip. lia.
Qed.

Lemma keys_after_scoring (matcher : dict → result Z) (jobs scored : list dict) :
  score_jobs matcher jobs = Ok scored →
  length scored = length jobs
  ∧ ∃ scores, mapM match_percentage_key scored = Ok scores.
Proof.
  unfold score_jobs. intros H. split; [by eapply mapM_length|].
  revert scored H. induction jobs as [|job jobs IH]; intros scored; simpl.
  - intros [= <-]. by eexists.
  - unfold mbind at 1, result_bind at 1.
    destruct (matcher job) as [s|e]; simpl; [|done].
    destruct (mapM _ jobs) as [rest|e]; simpl; [|done].
    intros [= <-]. destruct (IH rest eq_refl) as [scores Hscores].
    exists (s :: scores). simpl. rewrite Hscores.
    unfold match_percentage_key at 1, getitem, mbind, result_bind.
    by rewrite lookup_insert_eq.
Qed.

Lemma score_jobs_total (m : option dict → dict → Z) rd (jobs : list dict) :
  score_jobs (λ job, Ok (m rd job)) jobs = Ok (score_job m rd <$> jobs).
Proof.
  unfold score_jobs, mbind, result_bind.
  induction jobs as [|job jobs IH]; [done|].
  rewrite fmap_cons. simpl in *. by rewrite IH.
Qed.

Section Facts.
Variable scrape_all_sources : string → string → result (list dict).
Variable JobMatcher : option dict → result (dict → result Z).
Variable now_isoformat : string.

Local Abbreviation v2 :=
  (RaisingRoutes.search_jobs_realtime scrape_all_sources JobMatcher
     now_isoformat).
Local Abbreviation raises :=
  (raises_in_try scrape_all_sources JobMatcher).

Lemma raise_is_answered t loc rd e :
  raises t loc rd e → v2 t loc rd = failure_response e.
Proof.
  unfold RaisingRoutes.search_jobs_realtime, mbind, result_bind.
  intros [H|jobs H Hrd Hm|jobs matcher before job after H Hrd Hm -> Hb Hj].
  - by rewrite H.
  - rewrite H. simpl. rewrite Hrd. by rewrite Hm.
  - rewrite H. simpl. rewrite Hrd, Hm. simpl.
    unfold score_jobs. rewrite (mapM_raises _ before after job e); [done| |].
    + eapply Forall_impl; [exact Hb|]. intros j [s Hs].
      exists (<[MATCH_PERCENTAGE := PyNum s]> j).
      unfold mbind, result_bind. by rewrite Hs.
    + unfold mbind, result_bind. by rewrite Hj.
Qed.

(** A request either meets an exception inside the [try], or goes through
    with as many jobs as were scraped. *)
Lemma v2_cases t loc rd :
  (∃ e, raises t loc rd e ∧ v2 t loc rd = failure_response e)
  ∨ (∃ jobs out,
       scrape_all_sources t loc = Ok jobs
       ∧ length out = length jobs
       ∧ (truthy rd = false → out = jobs)
       ∧ v2 t loc rd = success_response now_isoformat out).
Proof.
  destruct (scrape_all_sources t loc) as [jobs|e] eqn:E.
  2: { left. exists e. split; [by constructor 1|].
       apply raise_is_answered. by constructor 1. }
  destruct (truthy rd) eqn:Hrd.
  2: { right. exists jobs, jobs. split_and!; [done..|].
       unfold RaisingRoutes.search_jobs_realtime, mbind, result_bind.
       by rewrite E, Hrd. }
  destruct (JobMatcher rd) as [matcher|e] eqn:Em.
  2: { left. exists e. split; [by econstructor 2|].
       apply raise_is_answered. by econstructor 2. }
  destruct (score_jobs matcher jobs) as [scored|e] eqn:Es.
  2: { left. exists e.
       assert (Hr : raises t loc rd e).
       { apply mapM_raise_inv in Es as (before & job & after & -> & Hb & Hj).
         eapply (scoring_raises _ _ _ _ _ _ _ matcher before job after);
           [done..| |].
         - eapply Forall_impl; [exact Hb|]. intros j [b Hj'].
           unfold mbind, result_bind in Hj'.
           destruct (matcher j) as [s|]; [by eexists|done].
         - unfold mbind, result_bind in Hj.
           by destruct (matcher job) as [s|]; [|injection Hj as ->]. }
       split; [done|]. by apply raise_is_answered. }
  right. destruct (keys_after_scoring _ _ _ Es) as (Hlen & scores & Hkeys).
  destruct (sorted match_percentage_key true scored) as [out|e] eqn:Eo.
  2: { unfold sorted in Eo. by rewrite Hkeys in Eo. }
  exists jobs, out. split_and!; [done| |done|].
  - apply sorted_length in Eo. lia.
  - unfold RaisingRoutes.search_jobs_realtime, mbind, result_bind.
    rewrite E. simpl. rewrite Hrd, Em. simpl. rewrite Es. simpl.
    by rewrite Eo.
Qed.

End Facts.

(** [Routes.search_jobs_realtime] is the endpoint at a matcher that never
    raises. *)
Lemma total_matcher_instance scrape (m : option dict → dict → Z) now t loc rd :
  RaisingRoutes.search_jobs_realtime scrape (never_raising m) now t loc rd
  = Routes.search_jobs_realtime scrape m now t loc rd.
Proof.
  unfold RaisingRoutes.search_jobs_realtime, Routes.search_jobs_realtime,
    never_raising, mbind, result_bind.
  destruct (scrape t loc) as [jobs|e]; simpl; [|done].
  destruct (truthy rd); [|done]. simpl.
  by rewrite score_jobs_total.
Qed.

End RaisingFacts.

(** * The claims *)


Import Text Routes RouteFacts Core DedupFacts OrchestratorFacts MatcherFacts
  Examples.

(** C1, as stated, fails on the real-time endpoint: when scraping raises, the
    response is flagged [success: False]. *)
Lemma realtime_failure_is_flagged :
  resp_success
    (search_jobs_realtime scraper_down example_matcher a_timestamp
       "Software Engineer" "Austin" None) = Some false.
Proof. reflexivity. Qed.

(** C1 (amended). Every search request is answered with a response that
    carries a jobs list; no Exception leaves either endpoint. [search_jobs]
    flags every response as a success; when scraping raises, its jobs list
    is empty, its count is 0 and its note is a fixed text.
    [search_jobs_realtime] answers with the failure flag, an empty jobs list
    and [str(e)] as the note exactly when an Exception is raised inside its
    [try] (by the scraper, by [JobMatcher(resume_data)] or by the scoring of
    a job), and flags a success otherwise. *)
Theorem search_always_answers
    (scrape : string → string → result (list dict))
    (JobMatcher : option dict → result (dict → result Z))
    (now t loc : string) (rd : option dict) :
  let v1 := search_jobs scrape now t loc in
  let v2 := RaisingRoutes.search_jobs_realtime scrape JobMatcher now t loc rd in
  (∃ l, resp_jobs v1 = Some l) ∧ (∃ l, resp_jobs v2 = Some l)
  ∧ resp_success v1 = Some true
  ∧ (∀ e, scrape t loc = Raise e →
       resp_jobs v1 = Some [] ∧ resp_count v1 = Some 0%Z
       ∧ v1 !! "error" = Some (RStr "Real job sources temporarily unavailable"))
  ∧ (∀ e, RaisingRoutes.raises_in_try scrape JobMatcher t loc rd e →
       resp_success v2 = Some false ∧ resp_jobs v2 = Some []
       ∧ v2 !! "error" = Some (RStr (exn_str e)))
  ∧ (resp_success v2 = Some false
     ↔ ∃ e, RaisingRoutes.raises_in_try scrape JobMatcher t loc rd e)
  ∧ (resp_success v2 = Some true
     ↔ ¬ ∃ e, RaisingRoutes.raises_in_try scrape JobMatcher t loc rd e).
Proof.
  intros v1 v2. subst v1 v2.
  assert (Hv1 : (∃ l, resp_jobs (search_jobs scrape now t loc) = Some l)
                ∧ resp_success (search_jobs scrape now t loc) = Some true
                ∧ ∀ e, scrape t loc = Raise e →
                    resp_jobs (search_jobs scrape now t loc) = Some []
                    ∧ resp_count (search_jobs scrape now t loc) = Some 0%Z
                    ∧ search_jobs scrape now t loc !! "error"
                      = Some (RStr "Real job sources temporarily unavailable")).
  { destruct (scrape t loc) as [jobs|e] eqn:E.
    - rewrite (v1_ok _ _ _ _ _ E). split_and!; [by eexists|done|done].
    - rewrite (v1_raise _ _ _ _ _ E). split_and!; [by eexists|done|].
      by intros e' _. }
  destruct Hv1 as (Hjobs & Hflag & Hraise).
  assert (Hfail : ∀ e, RaisingRoutes.raises_in_try scrape JobMatcher t loc rd e →
            resp_success
              (RaisingRoutes.search_jobs_realtime scrape JobMatcher now t loc rd)
            = Some false
            ∧ resp_jobs
                (RaisingRoutes.search_jobs_realtime scrape JobMatcher now t loc rd)
              = Some []
            ∧ RaisingRoutes.search_jobs_realtime scrape JobMatcher now t loc rd
              !! "error" = Some (RStr (exn_str e))).
  { intros e He. by rewrite (RaisingFacts.raise_is_answered _ _ now _ _ _ _ He). }
  destruct (RaisingFacts.v2_cases scrape JobMatcher now t loc rd)
    as [(e & He & Hv2)|(jobs & out & E & Hlen & Hsame & Hv2)].
  - destruct (Hfail e He) as (Hs & Hj & _).
    split_and!; [done|by eexists|done|done|done| |].
    + split; [by eauto|done].
    + rewrite Hs. split; [done|]. intros Hno. destruct Hno. eauto.
  - assert (Hs : resp_success
                   (RaisingRoutes.search_jobs_realtime scrape JobMatcher now t
                      loc rd) = Some true) by (by rewrite Hv2).
    assert (Hno : ¬ ∃ e, RaisingRoutes.raises_in_try scrape JobMatcher t loc rd e).
    { intros [e He]. destruct (Hfail e He) as (Hs' & _). congruence. }
    split_and!; [done| |done|done|done| |].
    + rewrite Hv2. by eexists.
    + rewrite Hs. split; [done|]. intros He. by destruct Hno.
    + by rewrite Hs.
Qed.

Lemma search_always_answers_witness :
  RaisingRoutes.raises_in_try scraper_down
    (RaisingRoutes.never_raising example_matcher)
    "Software Engineer" "Austin" (Some a_resume)
    (Exception "TimeoutError" "all sources timed out")
  ∧ resp_jobs (search_jobs scraper_down a_timestamp "Software Engineer" "Austin")
    = Some []
  ∧ resp_success
      (RaisingRoutes.search_jobs_realtime scraper_down
         (RaisingRoutes.never_raising example_matcher) a_timestamp
         "Software Engineer" "Austin" (Some a_resume)) = Some false.
Proof.
  assert (Hr : RaisingRoutes.raises_in_try scraper_down
                 (RaisingRoutes.never_raising example_matcher)
                 "Software Engineer" "Austin" (Some a_resume)
                 (Exception "TimeoutError" "all sources timed out"))
    by (constructor 1; reflexivity).
  split; [exact Hr|].
  pose proof (search_always_answers scraper_down
                (RaisingRoutes.never_raising example_matcher) a_timestamp
                "Software Engineer" "Austin" (Some a_resume)) as H.
  destruct H as (_ & _ & _ & H1 & H2 & _).
  split.
  - exact (proj1 (H1 _ eq_refl)).
  - exact (proj1 (H2 _ Hr)).
Defined.

(** C9, as stated, fails on the exception path of the real-time endpoint:
    that response has an empty jobs list and no count field at all. *)
Lemma realtime_failure_has_no_total :
  let r := search_jobs_realtime scraper_down example_matcher a_timestamp
             "Software Engineer" "Austin" None in
  resp_jobs r = Some [] ∧ r !! "total" = None ∧ r !! "count" = None
  ∧ resp_count r = None.
Proof. repeat split. Qed.

(** C9 (amended). Whenever a response of a job-search endpoint reports a
    count, it is the length of the jobs list of that response: [search_jobs]
    reports [count] on both paths (0 on the exception path), and
    [search_jobs_realtime] reports [total] when scraping returned; on its
    exception path the jobs list is empty and no count is reported. *)
Theorem count_is_length_of_jobs
    (scrape : string → string → result (list dict))
    (matcher : option dict → dict → Z) (now t loc : string)
    (rd : option dict) :
  let v1 := search_jobs scrape now t loc in
  let v2 := search_jobs_realtime scrape matcher now t loc rd in
  (∃ l, resp_jobs v1 = Some l ∧ resp_count v1 = Some (Z.of_nat (length l)))
  ∧ (∀ e, scrape t loc = Raise e → resp_jobs v1 = Some [] ∧ resp_count v1 = Some 0%Z)
  ∧ (∀ jobs, scrape t loc = Ok jobs →
       ∃ l, resp_jobs v2 = Some l ∧ resp_count v2 = Some (Z.of_nat (length l)))
  ∧ (∀ e, scrape t loc = Raise e → resp_jobs v2 = Some [] ∧ resp_count v2 = None).
Proof.
  intros v1 v2. subst v1 v2.
  destruct (scrape t loc) as [jobs|e] eqn:E.
  - rewrite (v1_ok _ _ _ _ _ E).
    split_and!; [by eexists| done | | done].
    intros jobs' [= <-]. destruct (truthy rd) eqn:Hrd.
    + rewrite (v2_matched _ _ _ _ _ _ _ E Hrd). by eexists.
    + rewrite (v2_unmatched _ _ _ _ _ _ _ E Hrd). by eexists.
  - rewrite (v1_raise _ _ _ _ _ E), (v2_raise _ _ _ _ _ _ _ E).
    split_and!; [by exists []| done | done | done].
Qed.

Lemma count_is_length_of_jobs_witness :
  scraper_up "Software Engineer" "Austin" = Ok three_jobs
  ∧ ∃ l, resp_jobs (search_jobs_realtime scraper_up example_matcher a_timestamp
                       "Software Engineer" "Austin" (Some a_resume)) = Some l
         ∧ resp_count (search_jobs_realtime scraper_up example_matcher a_timestamp
                         "Software Engineer" "Austin" (Some a_resume))
           = Some (Z.of_nat (length l)).
Proof.
  split; [reflexivity|].
  pose proof (count_is_length_of_jobs scraper_up example_matcher a_timestamp
                "Software Engineer" "Austin" (Some a_resume)) as H.
  destruct H as (_ & _ & H & _).
  exact (H three_jobs eq_refl).
Defined.

(** C2, as stated, fails for a resume record that is supplied but empty: the
    jobs come back in scraped order, without any [match_percentage]. *)
Lemma empty_resume_is_not_ranked :
  let r := search_jobs_realtime scraper_up example_matcher a_timestamp
             "Software Engineer" "Austin" (Some ∅) in
  resp_jobs r = Some three_jobs
  ∧ job_ids three_jobs = [Some (PyNum 1); Some (PyNum 2); Some (PyNum 3)]
  ∧ ¬ StronglySorted ranks_before three_jobs.
Proof.
  split; [reflexivity|]. split; [reflexivity|].
  intros H. inversion H as [|? ? _ Hfirst]; subst.
  inversion Hfirst as [|? ? Hbad _]; subst.
  exact Hbad.
Qed.

(** C2 (amended). When a non-empty resume record is supplied to the real-time
    search endpoint, the returned job list is sorted in descending order of
    [match_percentage], and jobs with equal [match_percentage] keep their
    relative order from the scraped list; scores 80, 80, 90 for the jobs
    1, 2, 3 give the order 3, 1, 2. *)
Theorem realtime_ranking_is_stable :
  (∀ (scrape : string → string → result (list dict))
     (matcher : option dict → dict → Z) (now t loc : string)
     (r : dict) (jobs : list dict),
     r ≠ ∅ → scrape t loc = Ok jobs →
     ∃ out,
       resp_jobs (search_jobs_realtime scrape matcher now t loc (Some r))
       = Some out
       ∧ StronglySorted ranks_before out
       ∧ ∀ s : Z,
           filter (λ job, match_percentage job = Some s) out
           = filter (λ job, match_percentage job = Some s)
               (score_job matcher (Some r) <$> jobs))
  ∧ (option_map job_ids
       (resp_jobs (search_jobs_realtime scraper_up example_matcher a_timestamp
                     "Software Engineer" "Austin" (Some a_resume)))
     = Some [Some (PyNum 3); Some (PyNum 1); Some (PyNum 2)]
     ∧ example_matcher (Some a_resume) <$> three_jobs = [80; 80; 90]%Z).
Proof.
  split; [|split; reflexivity].
  intros scrape matcher now t loc r jobs Hr E.
  assert (Hrd : truthy (Some r) = true) by (apply truthy_spec; eauto).
  exists (ranked matcher (Some r) jobs).
  rewrite (v2_matched _ _ _ _ _ _ _ E Hrd).
  split_and!; [done|apply ranked_sorted|intros s; apply ranked_stable].
Qed.

Lemma realtime_ranking_is_stable_witness :
  a_resume ≠ ∅
  ∧ scraper_up "Software Engineer" "Austin" = Ok three_jobs
  ∧ ∃ out,
      resp_jobs (search_jobs_realtime scraper_up example_matcher a_timestamp
                   "Software Engineer" "Austin" (Some a_resume)) = Some out
      ∧ StronglySorted ranks_before out.
Proof.
  assert (Hne : a_resume ≠ ∅) by (intros H; discriminate H).
  split; [exact Hne|]. split; [reflexivity|].
  destruct (proj1 realtime_ranking_is_stable scraper_up example_matcher
              a_timestamp "Software Engineer" "Austin" a_resume three_jobs
              Hne eq_refl) as (out & H1 & H2 & _).
  exists out. exact (conj H1 H2).
Defined.

(** C3, as stated, fails for a resume record that is present but empty: the
    matching step is skipped although [resume_data] was supplied. *)
Lemma present_empty_resume_skips_matching :
  let r := search_jobs_realtime scraper_up example_matcher a_timestamp
             "Software Engineer" "Austin" (Some ∅) in
  resp_jobs r = Some three_jobs
  ∧ Forall (λ job, match_percentage job = None) three_jobs.
Proof. split; [reflexivity|]. repeat constructor. Qed.

(** C3 (amended). The matching step is applied if and only if a non-empty
    resume record comes with the search request: with such a record every
    returned job is scored and the list is ranked; with [resume_data] absent
    or empty the scraped job list is returned without matching or
    re-ranking. *)
Theorem matching_iff_nonempty_resume
    (scrape : string → string → result (list dict))
    (matcher : option dict → dict → Z) (now t loc : string)
    (rd : option dict) (jobs : list dict) :
  scrape t loc = Ok jobs →
  let v2 := search_jobs_realtime scrape matcher now t loc rd in
  ((∃ r, rd = Some r ∧ r ≠ ∅) →
     ∃ out, resp_jobs v2 = Some out
       ∧ out ≡ₚ score_job matcher rd <$> jobs
       ∧ Forall (λ job, ∃ s, match_percentage job = Some s) out
       ∧ StronglySorted ranks_before out)
  ∧ (rd = None ∨ rd = Some ∅ → resp_jobs v2 = Some jobs)
  ∧ ((∃ r, rd = Some r ∧ r ≠ ∅) ∨ rd = None ∨ rd = Some ∅).
Proof.
  intros E v2. subst v2. split_and!.
  - intros Hrd%truthy_spec. exists (ranked matcher rd jobs).
    rewrite (v2_matched _ _ _ _ _ _ _ E Hrd).
    split_and!; [done|apply ranked_perm|apply ranked_all_scored|apply ranked_sorted].
  - intros Hrd. assert (Hf : truthy rd = false) by (by destruct Hrd as [->| ->]).
    by rewrite (v2_unmatched _ _ _ _ _ _ _ E Hf).
  - destruct rd as [r|]; [|by auto].
    destruct (decide (r = ∅)) as [->|Hr]; [by auto|]. left. by exists r.
Qed.

Lemma matching_iff_nonempty_resume_witness :
  scraper_up "Software Engineer" "Austin" = Ok three_jobs
  ∧ (∃ r, Some a_resume = Some r ∧ r ≠ ∅)
  ∧ ∃ out,
      resp_jobs (search_jobs_realtime scraper_up example_matcher a_timestamp
                   "Software Engineer" "Austin" (Some a_resume)) = Some out
      ∧ Forall (λ job, ∃ s, match_percentage job = Some s) out.
Proof.
  assert (Hne : ∃ r, Some a_resume = Some r ∧ r ≠ ∅).
  { exists a_resume. split; [reflexivity|]. intros H; discriminate H. }
  split; [reflexivity|]. split; [exact Hne|].
  destruct (proj1 (matching_iff_nonempty_resume scraper_up example_matcher
                     a_timestamp "Software Engineer" "Austin" (Some a_resume)
                     three_jobs eq_refl) Hne) as (out & H1 & _ & H2 & _).
  exists out. exact (conj H1 H2).
Defined.

(** C10, as stated, fails when the [resume_data] supplied is empty: the jobs
    come back as scraped, with no [match_percentage] field added. *)
Lemma empty_resume_adds_no_field :
  let r := search_jobs_realtime scraper_up example_matcher a_timestamp
             "Software Engineer" "Austin" (Some ∅) in
  resp_jobs r = Some three_jobs
  ∧ (λ job : dict, job !! MATCH_PERCENTAGE) <$> three_jobs = [None; None; None].
Proof. split; reflexivity. Qed.

(** C10 (amended). When a non-empty [resume_data] is supplied to the
    real-time search endpoint, the returned jobs are the scraped jobs, each
    with its [match_percentage] set to its score and every other field
    unchanged, in some order: no job is added or removed. *)
Theorem matching_only_sets_match_percentage
    (scrape : string → string → result (list dict))
    (matcher : option dict → dict → Z) (now t loc : string)
    (r : dict) (jobs : list dict) :
  r ≠ ∅ → scrape t loc = Ok jobs →
  ∃ out,
    resp_jobs (search_jobs_realtime scrape matcher now t loc (Some r)) = Some out
    ∧ out ≡ₚ (λ job : dict,
                <[MATCH_PERCENTAGE := PyNum (matcher (Some r) job)]> job) <$> jobs
    ∧ length out = length jobs
    ∧ (∀ job' : dict, job' ∈ out →
         ∃ job : dict, job ∈ jobs
           ∧ job' !! MATCH_PERCENTAGE = Some (PyNum (matcher (Some r) job))
           ∧ ∀ k, k ≠ MATCH_PERCENTAGE → job' !! k = job !! k)
    ∧ (∀ job : dict, job ∈ jobs →
         <[MATCH_PERCENTAGE := PyNum (matcher (Some r) job)]> job ∈ out).
Proof.
  intros Hr E.
  assert (Hrd : truthy (Some r) = true) by (apply truthy_spec; eauto).
  exists (ranked matcher (Some r) jobs).
  rewrite (v2_matched _ _ _ _ _ _ _ E Hrd).
  split_and!; [done|apply ranked_perm|apply ranked_length| |].
  - intros job' Hjob'. rewrite ranked_perm in Hjob'.
    apply list_elem_of_fmap in Hjob' as (job & -> & Hjob).
    exists job. split_and!; [done| |].
    + unfold score_job. by rewrite lookup_insert_eq.
    + intros k Hk. by apply score_other_fields.
  - intros job Hjob. rewrite ranked_perm.
    by apply (list_elem_of_fmap_2 (score_job matcher (Some r))).
Qed.

Lemma matching_only_sets_match_percentage_witness :
  a_resume ≠ ∅
  ∧ scraper_up "Software Engineer" "Austin" = Ok three_jobs
  ∧ ∃ out,
      resp_jobs (search_jobs_realtime scraper_up example_matcher a_timestamp
                   "Software Engineer" "Austin" (Some a_resume)) = Some out
      ∧ length out = length three_jobs.
Proof.
  assert (Hne : a_resume ≠ ∅) by (intros H; discriminate H).
  split; [exact Hne|]. split; [reflexivity|].
  destruct (matching_only_sets_match_percentage scraper_up example_matcher
              a_timestamp "Software Engineer" "Austin" a_resume three_jobs
              Hne eq_refl) as (out & H1 & _ & H2 & _).
  exists out. exact (conj H1 H2).
Defined.

(** C4. With weights that are non-negative and sum to 1,
    [calculateMatchPercentage] returns a value between 0 and 100 for every
    resume and job; when [skillsMentioned] is empty the skill-overlap
    sub-score is 0 (nothing is divided) and contributes nothing to the
    weighted sum. *)
Theorem match_percentage_bounded (cfg : MatcherConfig) (r : ResumeRecord)
    (j : JobPosting) :
  valid_weights cfg →
  (0 <= (calculateMatchPercentage cfg (r, j)).1 <= 100)%Z
  ∧ (skillsMentioned j = ∅ →
       skill_overlap r j = 0%Q
       ∧ (weighted_sum cfg r j
          == w_title cfg * clamp01 (title_similarity r j)
             + w_experience cfg * clamp01 (experience_fit cfg r j))%Q).
Proof.
  intros Hw. split; [apply (match_score_bounds cfg r j Hw)|].
  intros He. pose proof (skill_overlap_empty r j He) as H0.
  split; [done|]. unfold weighted_sum. rewrite H0, clamp01_zero. lra.
Qed.

Lemma match_percentage_bounded_witness :
  valid_weights default_config
  ∧ skillsMentioned posting_no_skills = ∅
  ∧ (0 <= (calculateMatchPercentage default_config
             (a_candidate, posting_no_skills)).1 <= 100)%Z
  ∧ skill_overlap a_candidate posting_no_skills = 0%Q.
Proof.
  assert (Hw : valid_weights default_config).
  { unfold valid_weights, default_config. simpl. repeat split; try discriminate.
  }
  assert (He : skillsMentioned posting_no_skills = ∅) by reflexivity.
  split; [exact Hw|]. split; [exact He|].
  destruct (match_percentage_bounded default_config a_candidate
              posting_no_skills Hw) as (Hb & Hs).
  split; [exact Hb|]. exact (proj1 (Hs He)).
Defined.

(** C6. Deduplication is idempotent (no two survivors are duplicates of each
    other), and it preserves first-seen order: what identifies the survivors
    is a subsequence of what identifies the input postings; a posting that
    duplicates none of the postings before it becomes the last survivor
    unchanged, and a posting that duplicates an earlier one adds no survivor
    and moves none. *)
Theorem dedup_idempotent_first_seen (x : list JobPosting) :
  dedup (dedup x) = dedup x
  ∧ Apart (dedup x)
  ∧ identity_of <$> dedup x `sublist_of` identity_of <$> x
  ∧ (∀ j, Forall (λ p, is_duplicate j p = false) x →
          dedup (x ++ [j]) = dedup x ++ [j])
  ∧ (∀ j p, p ∈ x → is_duplicate j p = true →
            identity_of <$> dedup (x ++ [j]) `sublist_of` identity_of <$> dedup x).
Proof.
  split_and!.
  - apply dedup_idempotent.
  - apply Apart_survivors, Sep_groups.
  - apply dedup_first_seen.
  - intros j. apply dedup_snoc_fresh.
  - intros j p. apply dedup_snoc_duplicate.
Qed.

Lemma dedup_idempotent_first_seen_witness :
  Forall (λ p, is_duplicate posting_qa p = false) [posting_abc; posting_xyz]
  ∧ dedup (dedup [posting_abc; posting_xyz]) = dedup [posting_abc; posting_xyz]
  ∧ dedup ([posting_abc; posting_xyz] ++ [posting_qa])
    = dedup [posting_abc; posting_xyz] ++ [posting_qa].
Proof.
  assert (H : Forall (λ p, is_duplicate posting_qa p = false)
                [posting_abc; posting_xyz])
    by (repeat constructor; vm_compute; reflexivity).
  split; [exact H|].
  destruct (dedup_idempotent_first_seen [posting_abc; posting_xyz])
    as (H1 & _ & _ & H2 & _).
  split; [exact H1|]. exact (H2 posting_qa H).
Defined.

(** Normalisation at work: scheme and host in lower case, the user
    information, the path, the other parameters and the fragment untouched,
    the tracking parameters gone whatever their case; the words of a text
    in lower case with one space between them. Only the letters of the
    ASCII alphabet are folded. *)
Example normalisation_examples :
  normalize_url "HTTPS://User@Site.COM/Job/123?REF=abc&id=7&utm_source=x#Top"
  = "https://User@site.com/Job/123?id=7#Top"
  ∧ normalize_url "https://site.com/job/123?ref=abc" = "https://site.com/job/123"
  ∧ normalize_text "  Software   ENGINEER " = "software engineer"
  ∧ render (job_123 "abc") = "https://site.com/job/123?ref=abc".
Proof. split_and!; vm_compute; reflexivity. Qed.

(** C7. Two postings of the input are merged by [dedup] into one surviving
    posting (they lie in one group, the only one that holds either of them,
    and its survivor is returned) when their URLs match (the same but for
    the case of scheme and host and for their tracking parameters) or their
    normalised URLs are equal, or when their titles, companies and
    locations all match (the same words up to the case of their letters,
    whatever the whitespace around them); two such postings on their own
    leave a single survivor. Normalisation is what the words say: on every
    absolute URL [normalize_url] lowers scheme and host, strips the tracking
    parameters and keeps the rest; two texts have the same [normalize_text]
    exactly when they match; two strings have the same [lowercase] exactly
    when they differ in the case of ASCII letters only. The postings with
    URLs https://site.com/job/123?ref=abc and
    https://site.com/job/123?ref=xyz merge into one; of the parameters
    ref=abc, id=7, utm_source=x, REF=z and q=ref, normalisation keeps id=7
    and q=ref. *)
Theorem duplicates_merge_into_one :
  (∀ (x : list JobPosting) (p q : JobPosting),
     p ∈ x → q ∈ x →
     same_job p q ∨ normalize_url (url p) = normalize_url (url q) →
     ∃ g, g ∈ duplicate_groups x ∧ p ∈ members g ∧ q ∈ members g
          ∧ survivor g ∈ dedup x
          ∧ ∀ g', g' ∈ duplicate_groups x →
                  p ∈ members g' ∨ q ∈ members g' → g' = g)
  ∧ (∀ p q : JobPosting,
       same_job p q ∨ normalize_url (url p) = normalize_url (url q) →
       dedup [p; q] = [survivor (p, [q])])
  ∧ (∀ u : UrlParts,
       well_formed u → normalize_url (render u) = render (normalised u))
  ∧ (∀ u v : string, url_matches u v → normalize_url u = normalize_url v)
  ∧ (∀ a b : string, text_matches a b ↔ normalize_text a = normalize_text b)
  ∧ (∀ (ws : list string) (s : string),
       spaced ws s → normalize_text s = join " " (lowercase <$> ws))
  ∧ (∀ a b : string, same_ignoring_case a b ↔ lowercase a = lowercase b)
  ∧ (url_matches "https://site.com/job/123?ref=abc"
                 "https://site.com/job/123?ref=xyz"
     ∧ length (dedup [posting_abc; posting_xyz]) = 1
     ∧ List.filter keeps_param ["ref=abc"; "id=7"; "utm_source=x"; "REF=z"; "q=ref"]
       = ["id=7"; "q=ref"]).
Proof.
  assert (Hdup : ∀ p q,
            same_job p q ∨ normalize_url (url p) = normalize_url (url q) →
            is_duplicate p q = true).
  { intros p q Hpq. unfold is_duplicate, url_key, listing_key.
    destruct Hpq as [[Hu|(Ht & Hc & Hl)]|Hu].
    - apply UrlFacts.url_matches_normalize in Hu.
      by rewrite (bool_decide_eq_true_2 _ Hu).
    - apply TextFacts.text_matches_normalize in Ht, Hc, Hl.
      rewrite (bool_decide_eq_true_2 (_ = (_, _, _))) by congruence.
      apply orb_true_r.
    - by rewrite (bool_decide_eq_true_2 _ Hu). }
  assert (Hex : url_matches "https://site.com/job/123?ref=abc"
                            "https://site.com/job/123?ref=xyz").
  { assert (Hwf : ∀ r, r = "abc" ∨ r = "xyz" → well_formed (job_123 r)).
    { intros r Hr. unfold well_formed. simpl.
      split_and!; [done|done|by intros u [=]|done|right; by eexists|done|].
      by destruct Hr as [->| ->]; repeat constructor. }
    exists (job_123 "abc"), (job_123 "xyz").
    split_and!; [by apply Hwf; left|by apply Hwf; right|done..| |done| |done|done|done];
      by apply TextFacts.same_ignoring_case_lowercase. }
  split_and!.
  - intros x p q Hp Hq Hkeys. apply Hdup in Hkeys.
    destruct (represented x p Hp) as (g & Hg & Hpg & Hs).
    exists g. split_and!; [done..| |done|].
    + destruct (represented x q Hq) as (h & Hh & Hqh & _).
      by rewrite (same_group _ g h p q (Sep_groups x) Hg Hh Hpg Hqh Hkeys).
    + assert (Hq' : ∃ h, h ∈ duplicate_groups x ∧ q ∈ members h ∧ h = g).
      { destruct (represented x q Hq) as (h & Hh & Hqh & _).
        exists h. split_and!; [done..|]. symmetry.
        exact (same_group _ g h p q (Sep_groups x) Hg Hh Hpg Hqh Hkeys). }
      destruct Hq' as (h & Hh & Hqh & ->).
      intros g' Hg' [Hp'|Hq'].
      * apply (same_group _ g' g p p (Sep_groups x) Hg' Hg Hp' Hpg).
        apply is_duplicate_refl.
      * apply (same_group _ g' g q q (Sep_groups x) Hg' Hh Hq' Hqh).
        apply is_duplicate_refl.
  - intros p q Hkeys. apply Hdup in Hkeys.
    unfold dedup, duplicate_groups. simpl.
    unfold touches, members. simpl.
    rewrite is_duplicate_sym, Hkeys. done.
  - apply UrlFacts.normalize_url_render.
  - apply UrlFacts.url_matches_normalize.
  - apply TextFacts.text_matches_normalize.
  - apply TextFacts.normalize_text_spaced.
  - apply TextFacts.same_ignoring_case_lowercase.
  - exact Hex.
  - reflexivity.
  - reflexivity.
Qed.

Lemma duplicates_merge_into_one_witness :
  posting_abc ∈ [posting_abc; posting_qa; posting_xyz]
  ∧ posting_xyz ∈ [posting_abc; posting_qa; posting_xyz]
  ∧ url_matches (url posting_abc) (url posting_xyz)
  ∧ ∃ g, g ∈ duplicate_groups [posting_abc; posting_qa; posting_xyz]
         ∧ posting_abc ∈ members g ∧ posting_xyz ∈ members g.
Proof.
  assert (H1 : posting_abc ∈ [posting_abc; posting_qa; posting_xyz])
    by apply list_elem_of_here.
  assert (H2 : posting_xyz ∈ [posting_abc; posting_qa; posting_xyz])
    by (do 2 apply list_elem_of_further; apply list_elem_of_here).
  assert (H3 : url_matches (url posting_abc) (url posting_xyz)).
  { exists (job_123 "abc"), (job_123 "xyz"). unfold well_formed. simpl.
    split_and!; try done; try (by intros u [=]); try (right; by eexists);
      try (by repeat constructor);
      by apply TextFacts.same_ignoring_case_lowercase. }
  pose proof duplicates_merge_into_one as (Hmerge & _).
  split; [exact H1|]. split; [exact H2|]. split; [exact H3|].
  destruct (Hmerge _ _ _ H1 H2 (or_introl (or_introl H3)))
    as (g & Hg & Hp & Hq & _).
  exists g. exact (conj Hg (conj Hp Hq)).
Defined.

(** The scenario of the specification: of the adapters A, B and C, B never
    answers. The outcome is the one of A and C alone: the posting of C, a
    duplicate of the first posting of A, is merged with it, and the second
    posting of A follows. *)
Example hanging_adapter_scenario :
  let out := scrapeAllSources 1000 three_adapters "Software Engineer" "Austin" in
  out = scrapeAllSources 1000 [("A", adapter_A); ("C", adapter_C)]
          "Software Engineer" "Austin"
  ∧ out = [survivor (posting_abc, [posting_xyz]); posting_qa]
  ∧ skillsMentioned (survivor (posting_abc, [posting_xyz]))
    = skillsMentioned posting_abc ∪ skillsMentioned posting_xyz.
Proof. split_and!; vm_compute; reflexivity. Qed.



(** The end-to-end scenario of the specification: three adapters returning
    2, 0 and 1 postings, one of them a duplicate across the first and the
    third, give exactly 2 postings. *)
Example end_to_end_scenario :
  length (scrapeAllSources 1000
            [("A", adapter_A); ("N", adapter_none); ("C", adapter_C)]
            "Software Engineer" "Austin") = 2.
Proof. vm_compute. reflexivity. Qed.

(** * Further properties of the endpoints *)

(** ** Ranking: what the sort leaves in place *)

Module RankingFacts.
Import Routes SortFacts RouteFacts.

Section Sorted.
Context {A : Type}.
Implicit Types (x : Z * A) (l acc : list (Z * A)).

Lemma insert_by_key_last x l :
  Forall (λ y, (y.1 <= x.1)%Z) l → insert_by_key x l = l ++ [x].
Proof.
  induction 1 as [|y l Hy _ IH]; simpl; [done|].
  destruct (Z.ltb_spec x.1 y.1); [lia|]. by rewrite IH.
Qed.

Lemma sort_from_sorted_id l acc :
  StronglySorted key_le (acc ++ l) →
  fold_left (λ acc x, insert_by_key x acc) l acc = acc ++ l.
Proof.
  revert acc. induction l as [|x l IH]; intros acc Hs; simpl.
  - by rewrite app_nil_r.
  - rewrite insert_by_key_last.
    + rewrite IH; rewrite <- app_assoc; done.
    + apply StronglySorted_app in Hs as (Hlt & _ & _).
      apply Forall_forall. intros y Hy.
      apply (Hlt y x Hy). apply list_elem_of_here.
Qed.

Lemma sort_by_key_sorted_id l :
  StronglySorted key_le l → sort_by_key l = l.
Proof. intros Hs. unfold sort_by_key. by rewrite sort_from_sorted_id. Qed.

Lemma reverse_sorted_ge l :
  StronglySorted key_ge l → StronglySorted key_le (reverse l).
Proof.
  induction 1 as [|y l Hs IH Hy].
  - rewrite reverse_nil. constructor.
  - rewrite reverse_cons. apply StronglySorted_app_2; [|done|repeat constructor].
    intros a b Ha Hb. apply list_elem_of_singleton in Hb as ->.
    rewrite elem_of_reverse in Ha. rewrite Forall_forall in Hy.
    exact (Hy a Ha).
Qed.

Lemma sort_descending_sorted_id l :
  StronglySorted key_ge l → sort_descending l = l.
Proof.
  intros Hs. unfold sort_descending.
  rewrite sort_by_key_sorted_id by by apply reverse_sorted_ge.
  apply reverse_involutive.
Qed.

End Sorted.

Section Ranked.
Variable matcher : option dict → dict → Z.
Variable rd : option dict.

Local Abbreviation m := (matcher rd).
Local Abbreviation score := (score_job matcher rd).

Lemma decorated_sorted (jobs : list dict) :
  StronglySorted (λ a b, (m b <= m a)%Z) jobs →
  StronglySorted key_ge (zip (m <$> jobs) (score <$> jobs)).
Proof.
  induction 1 as [|a jobs Hs IH Ha]; [constructor|].
  rewrite !fmap_cons. simpl. constructor; [done|].
  clear IH Hs. induction Ha as [|b jobs Hb _ IH]; [constructor|].
  rewrite !fmap_cons. simpl. constructor; [exact Hb|done].
Qed.

Lemma ranked_of_sorted (jobs : list dict) :
  StronglySorted (λ a b, (m b <= m a)%Z) jobs →
  ranked matcher rd jobs = score <$> jobs.
Proof.
  intros Hs. unfold ranked.
  rewrite sort_descending_sorted_id by by apply decorated_sorted.
  apply snd_zip. by rewrite !length_fmap.
Qed.

Lemma constant_scores_sorted (jobs : list dict) :
  (∀ a b, a ∈ jobs → b ∈ jobs → m a = m b) →
  StronglySorted (λ a b, (m b <= m a)%Z) jobs.
Proof.
  induction jobs as [|a jobs IH]; intros H; constructor.
  - apply IH. intros x y Hx Hy. apply H; by apply list_elem_of_further.
  - apply Forall_forall. intros b Hb.
    rewrite (H a b); [lia|apply list_elem_of_here|by apply list_elem_of_further].
Qed.

(** The head of the ranked list is the first scraped job with the highest
    score. *)
Lemma ranked_head (jobs : list dict) :
  jobs ≠ [] →
  ∃ pre j post rest,
    jobs = pre ++ j :: post
    ∧ ranked matcher rd jobs = score j :: rest
    ∧ Forall (λ x, (m x < m j)%Z) pre
    ∧ Forall (λ x, (m x <= m j)%Z) post.
Proof.
  intros Hne.
  destruct (ranked matcher rd jobs) as [|best rest] eqn:E.
  { apply (f_equal length) in E. rewrite ranked_length in E.
    by destruct jobs. }
  pose proof (ranked_all_scored matcher rd jobs) as Hall.
  pose proof (ranked_sorted matcher rd jobs) as Hsorted.
  pose proof (ranked_perm matcher rd jobs) as Hperm.
  rewrite E in Hall, Hsorted, Hperm.
  apply Forall_cons in Hall as [[s Hs] _].
  apply StronglySorted_inv in Hsorted as [_ Hbelow].
  pose proof (ranked_stable matcher rd jobs s) as Hstable.
  rewrite E, filter_cons_True in Hstable by done.
  assert (Hhead : head (filter (λ job, match_percentage job = Some s)
                          (score <$> jobs)) = Some best)
    by (by rewrite <- Hstable).
  apply head_filter_Some in Hhead as (l1 & l2 & Hsplit & Hl1).
  apply fmap_app_inv in Hsplit as (pre & tl & Hpre & Htl & ->).
  symmetry in Htl. apply fmap_cons_inv in Htl as (j & post & Hj & Hpost & ->).
  assert (Hsj : s = m j).
  { rewrite Hj, match_percentage_score in Hs. by injection Hs. }
  assert (Hle : ∀ x, x ∈ pre ++ j :: post → (m x <= m j)%Z).
  { intros x Hx.
    assert (Hin : score x ∈ best :: rest).
    { rewrite Hperm. by apply list_elem_of_fmap_2. }
    apply elem_of_cons in Hin as [Hx'|Hx'].
    - assert (Some (m x) = Some s) as [= ->]; [|lia].
      by rewrite <- (match_percentage_score matcher rd x), Hx'.
    - rewrite Forall_forall in Hbelow. specialize (Hbelow _ Hx').
      unfold ranks_before in Hbelow.
      rewrite Hs, match_percentage_score in Hbelow. lia. }
  exists pre, j, post, rest. split_and!; [done|by rewrite Hj| |].
  - apply Forall_forall. intros x Hx.
    assert (m x <= m j)%Z by (apply Hle, elem_of_app; by left).
    assert (m x ≠ m j); [|lia].
    intros Heq. rewrite Forall_forall in Hl1.
    apply (Hl1 (score x)); [subst l1; by apply list_elem_of_fmap_2|].
    rewrite match_percentage_score. congruence.
  - apply Forall_forall. intros x Hx. apply Hle.
    apply elem_of_app. right. by apply list_elem_of_further.
Qed.

End Ranked.
End RankingFacts.

(** ** The other endpoints of jobsearch.py *)

Module ApiFacts.
Import Api.

Lemma slice_to_length n s :
  str_len (slice_to n s) = Nat.min n (str_len s).
Proof.
  revert n. induction s as [|c s IH]; intros n; simpl; [lia|].
  destruct (is_continuation c) eqn:Ec; simpl.
  - by rewrite Ec, IH.
  - destruct n as [|n]; simpl; [done|]. by rewrite Ec, IH.
Qed.

(** The cut falls in front of a character, never inside one. *)
Lemma slice_to_prefix n s :
  ∃ tail, s = slice_to n s +:+ tail
          ∧ match tail with
            | EmptyString => True
            | String c _ => is_continuation c = false
            end.
Proof.
  revert n. induction s as [|c s IH]; intros n; simpl.
  - by exists "".
  - destruct (is_continuation c) eqn:Ec.
    + destruct (IH n) as (tail & Htail & Hcut). exists tail.
      split; [|done].
      change (String c s = String c (slice_to n s +:+ tail)). by f_equal.
    + destruct n as [|n].
      * by exists (String c s).
      * destruct (IH n) as (tail & Htail & Hcut). exists tail.
        split; [|done].
        change (String c s = String c (slice_to n s +:+ tail)). by f_equal.
Qed.

Lemma slice_to_short n s : (str_len s <= n)%nat → slice_to n s = s.
Proof.
  revert n. induction s as [|c s IH]; intros n; simpl; [done|].
  destruct (is_continuation c) eqn:Ec; simpl.
  - intros H. by rewrite IH.
  - destruct n as [|n]; [lia|]. intros H. rewrite IH; [done|lia].
Qed.

Section Facts.
Variable decode_utf8_ignore : list Byte.byte → string.
Variable resume_parser_parse_resume : string → result pydict.
Variable chatbot_predict_intent : string → result pydict.
Variable chatbot_generate_response : pyobj → result pyobj.
Variable autofill_auto_fill_application : pydict → pydict → result pyobj.
Variable str_of : pyobj → string.
Variable now_isoformat : string.

Local Abbreviation parse :=
  (parse_resume decode_utf8_ignore resume_parser_parse_resume).
Local Abbreviation chat' :=
  (chat chatbot_predict_intent chatbot_generate_response now_isoformat).
Local Abbreviation autofill :=
  (autofill_application autofill_auto_fill_application str_of now_isoformat).

Local Ltac run :=
  unfold parse_resume, chat, autofill_application, try_except_logged,
    log_and_raise_500, mbind, logged_bind, mret, logged_ret, log, call,
    subscript, dict_get; simpl.

Lemma parse_answers (file : UploadFile) : answers_or_500 (parse file).
Proof.
  unfold answers_or_500. run.
  destruct (read file) as [content|e]; simpl.
  2: { split; [done|]. eexists [_], _. split; [done|]. by repeat constructor. }
  destruct (resume_parser_parse_resume _) as [d|e]; simpl.
  2: { split; [done|]. eexists [_], _. split; [done|]. by repeat constructor. }
  destruct (d !! "skills") as [v|]; simpl.
  2: { split; [done|]. eexists [_], _. split; [done|]. by repeat constructor. }
  destruct v; simpl;
    first [ split; [done|]; by repeat constructor
          | split; [done|]; eexists [_], _; split; [done|];
            by repeat constructor ].
Qed.

Lemma chat_answers (user_message : string) :
  answers_or_500 (chat' user_message).
Proof.
  unfold answers_or_500. run.
  destruct (chatbot_predict_intent _) as [d|e]; simpl.
  2: { split; [done|]. eexists [_], _. split; [done|]. by repeat constructor. }
  destruct (chatbot_generate_response _) as [reply|e]; simpl.
  - split; [done|]. by repeat constructor.
  - split; [done|]. eexists [_], _. split; [done|]. by repeat constructor.
Qed.

Lemma autofill_answers (resume_data job_data : pydict) :
  answers_or_500 (autofill resume_data job_data).
Proof.
  unfold answers_or_500. run.
  destruct (autofill_auto_fill_application _ _) as [filled|e]; simpl.
  - split; [done|]. by repeat constructor.
  - split; [done|]. eexists [_], _. split; [done|]. by repeat constructor.
Qed.

(** A body comes back only when every step went through. *)
Lemma parse_respond_inv (file : UploadFile) (body : pydict) :
  (parse file).2 = Respond body →
  ∃ content d v n,
    read file = Ok content
    ∧ resume_parser_parse_resume (decode_utf8_ignore content) = Ok d
    ∧ d !! "skills" = Some v ∧ py_len v = Ok n
    ∧ body = <["success" := PBool true]> (<["parsed_data" := PDict d]> ∅).
Proof.
  run.
  destruct (read file) as [content|e]; simpl; [|done].
  destruct (resume_parser_parse_resume _) as [d|e] eqn:Ed; simpl; [|done].
  destruct (d !! "skills") as [v|] eqn:Ev; simpl; [|done].
  destruct (py_len v) as [n|e] eqn:En; simpl; [|done].
  intros [= <-]. by exists content, d, v, n.
Qed.

Lemma parse_missing_skills (file : UploadFile) content d :
  read file = Ok content →
  resume_parser_parse_resume (decode_utf8_ignore content) = Ok d →
  d !! "skills" = None →
  (parse file).2 = HTTPException 500 "'skills'".
Proof. intros Hr Hp Hs. run. rewrite Hr. simpl. rewrite Hp. simpl. by rewrite Hs. Qed.

Lemma chat_respond_inv (user_message : string) (body : pydict) :
  (chat' user_message).2 = Respond body →
  ∃ intent_data reply,
    chatbot_predict_intent user_message = Ok intent_data
    ∧ chatbot_generate_response
        (dict_get intent_data "intent" (PStr "general")) = Ok reply
    ∧ body !! "intent" = Some (dict_get intent_data "intent" (PStr "general"))
    ∧ body !! "response" = Some reply
    ∧ body !! "confidence"
      = Some (dict_get intent_data "confidence" (PFloat "0.0")).
Proof.
  unfold chat, try_except_logged, log_and_raise_500, mbind, logged_bind, mret,
    logged_ret, log, call. simpl.
  destruct (chatbot_predict_intent _) as [d|e] eqn:Ed; simpl; [|done].
  destruct (chatbot_generate_response _) as [reply|e] eqn:Er; simpl; [|done].
  intros [= <-]. by exists d, reply.
Qed.

Lemma chat_first_line (user_message : string) :
  ∃ rest,
    (chat' user_message).1
    = LogEntry INFO ("Chatbot: " +:+ slice_to 50 user_message) :: rest.
Proof.
  run. destruct (chatbot_predict_intent _) as [d|e]; simpl; [|by eexists].
  destruct (chatbot_generate_response _) as [reply|e]; simpl; by eexists.
Qed.

End Facts.
End ApiFacts.

(** ** Properties of the search endpoints *)

Import RankingFacts.


(** X2. When scraping returns, [search_jobs] reports the number of scraped
    jobs as its count, and so does every response of the real-time endpoint
    that is flagged a success, with or without a resume: scoring and sorting
    add and drop no job. Without a resume (or with an empty one) the
    real-time endpoint is a success and returns the very same jobs list. *)
Theorem realtime_agrees_with_search
    (scrape : string → string → result (list dict))
    (JobMatcher : option dict → result (dict → result Z))
    (now t loc : string) (rd : option dict) (jobs : list dict) :
  scrape t loc = Ok jobs →
  let v1 := search_jobs scrape now t loc in
  let v2 := RaisingRoutes.search_jobs_realtime scrape JobMatcher now t loc rd in
  resp_count v1 = Some (Z.of_nat (length jobs))
  ∧ resp_jobs v1 = Some jobs
  ∧ (resp_success v2 = Some true →
       resp_count v2 = Some (Z.of_nat (length jobs))
       ∧ ∃ out, resp_jobs v2 = Some out ∧ length out = length jobs)
  ∧ (truthy rd = false →
       resp_success v2 = Some true ∧ resp_jobs v2 = Some jobs).
Proof.
  intros E v1 v2. subst v1 v2. rewrite (v1_ok _ _ _ _ _ E).
  split; [done|]. split; [done|].
  destruct (RaisingFacts.v2_cases scrape JobMatcher now t loc rd)
    as [(e & He & Hv2)|(jobs' & out & E' & Hlen & Hsame & Hv2)].
  - split.
    + rewrite Hv2. done.
    + intros Hrd. destruct He as [H|? _ Hrd' _|? ? ? ? ? _ Hrd' _ _ _ _];
        congruence.
  - rewrite E in E'. injection E' as <-. rewrite Hv2. split.
    + intros _. split.
      * change (Some (Z.of_nat (length out)) = Some (Z.of_nat (length jobs))).
        by rewrite Hlen.
      * by exists out.
    + intros Hrd. by rewrite (Hsame Hrd).
Qed.

Lemma realtime_agrees_with_search_witness :
  scraper_up "Software Engineer" "Austin" = Ok three_jobs
  ∧ truthy None = false
  ∧ resp_jobs (RaisingRoutes.search_jobs_realtime scraper_up
                 (RaisingRoutes.never_raising example_matcher) a_timestamp
                 "Software Engineer" "Austin" None)
    = Some three_jobs.
Proof.
  split; [reflexivity|]. split; [reflexivity|].
  pose proof (realtime_agrees_with_search scraper_up
                (RaisingRoutes.never_raising example_matcher) a_timestamp
                "Software Engineer" "Austin" None three_jobs eq_refl) as H.
  destruct H as (_ & _ & _ & H).
  exact (proj2 (H eq_refl)).
Defined.

(** X3. With a non-empty resume and at least one scraped job, the first job
    returned is the first scraped job that has the highest score: every job
    scraped before it scores strictly less, every job scraped after it at
    most as much. *)
Theorem top_result_is_first_best
    (scrape : string → string → result (list dict))
    (matcher : option dict → dict → Z) (now t loc : string)
    (r : dict) (jobs : list dict) :
  r ≠ ∅ → scrape t loc = Ok jobs → jobs ≠ [] →
  ∃ pre j post rest,
    jobs = pre ++ j :: post
    ∧ resp_jobs (search_jobs_realtime scrape matcher now t loc (Some r))
      = Some (score_job matcher (Some r) j :: rest)
    ∧ Forall (λ x, (matcher (Some r) x < matcher (Some r) j)%Z) pre
    ∧ Forall (λ x, (matcher (Some r) x <= matcher (Some r) j)%Z) post.
Proof.
  intros Hr E Hne.
  assert (Hrd : truthy (Some r) = true) by (apply truthy_spec; eauto).
  destruct (ranked_head matcher (Some r) jobs Hne)
    as (pre & j & post & rest & Hjobs & Hranked & Hpre & Hpost).
  exists pre, j, post, rest.
  rewrite (v2_matched _ _ _ _ _ _ _ E Hrd).
  split_and!; [done| |done|done].
  change (Some (ranked matcher (Some r) jobs)
          = Some (score_job matcher (Some r) j :: rest)).
  by rewrite Hranked.
Qed.

Lemma top_result_is_first_best_witness :
  a_resume ≠ ∅
  ∧ scraper_up "Software Engineer" "Austin" = Ok three_jobs
  ∧ three_jobs ≠ []
  ∧ ∃ j rest,
      resp_jobs (search_jobs_realtime scraper_up example_matcher a_timestamp
                   "Software Engineer" "Austin" (Some a_resume))
      = Some (score_job example_matcher (Some a_resume) j :: rest).
Proof.
  assert (Hne : a_resume ≠ ∅) by (intros H; discriminate H).
  assert (Hjobs : three_jobs ≠ []) by (intros H; discriminate H).
  split; [exact Hne|]. split; [reflexivity|]. split; [exact Hjobs|].
  destruct (top_result_is_first_best scraper_up example_matcher a_timestamp
              "Software Engineer" "Austin" a_resume three_jobs Hne eq_refl
              Hjobs) as (_ & j & _ & rest & _ & H & _).
  exists j, rest. exact H.
Defined.

(** X4. With a non-empty resume, scraped jobs whose scores never increase
    along the list come back in their scraped order, each with its score; in
    particular when all jobs get the same score. *)
Theorem ranked_input_keeps_its_order
    (scrape : string → string → result (list dict))
    (matcher : option dict → dict → Z) (now t loc : string)
    (r : dict) (jobs : list dict) :
  r ≠ ∅ → scrape t loc = Ok jobs →
  let out := resp_jobs (search_jobs_realtime scrape matcher now t loc (Some r)) in
  (StronglySorted (λ a b, (matcher (Some r) b <= matcher (Some r) a)%Z) jobs →
   out = Some (score_job matcher (Some r) <$> jobs))
  ∧ ((∀ a b, a ∈ jobs → b ∈ jobs → matcher (Some r) a = matcher (Some r) b) →
     out = Some (score_job matcher (Some r) <$> jobs)).
Proof.
  intros Hr E out. subst out.
  assert (Hrd : truthy (Some r) = true) by (apply truthy_spec; eauto).
  rewrite (v2_matched _ _ _ _ _ _ _ E Hrd).
  assert (H : StronglySorted
                (λ a b, (matcher (Some r) b <= matcher (Some r) a)%Z) jobs →
              resp_jobs
                (<["success" := RBool true]>
                 (<["jobs" := RJobs (ranked matcher (Some r) jobs)]>
                 (<["total" := RInt (Z.of_nat (length (ranked matcher (Some r) jobs)))]>
                 (<["timestamp" := RStr now]> ∅))))
              = Some (score_job matcher (Some r) <$> jobs)).
  { intros Hs.
    change (Some (ranked matcher (Some r) jobs)
            = Some (score_job matcher (Some r) <$> jobs)).
    by rewrite ranked_of_sorted. }
  split; [exact H|].
  intros Hconst. by apply H, constant_scores_sorted.
Qed.

Lemma ranked_input_keeps_its_order_witness :
  a_resume ≠ ∅
  ∧ scraper_up "Software Engineer" "Austin" = Ok three_jobs
  ∧ (∀ a b : dict, a ∈ three_jobs → b ∈ three_jobs →
       ApiExamples.constant_matcher (Some a_resume) a
       = ApiExamples.constant_matcher (Some a_resume) b)
  ∧ resp_jobs (search_jobs_realtime scraper_up ApiExamples.constant_matcher
                 a_timestamp "Software Engineer" "Austin" (Some a_resume))
    = Some (score_job ApiExamples.constant_matcher (Some a_resume) <$> three_jobs).
Proof.
  assert (Hne : a_resume ≠ ∅) by (intros H; discriminate H).
  assert (Hconst : ∀ a b : dict, a ∈ three_jobs → b ∈ three_jobs →
            ApiExamples.constant_matcher (Some a_resume) a
            = ApiExamples.constant_matcher (Some a_resume) b)
    by (intros; reflexivity).
  split; [exact Hne|]. split; [reflexivity|]. split; [exact Hconst|].
  exact (proj2 (ranked_input_keeps_its_order scraper_up
                  ApiExamples.constant_matcher a_timestamp "Software Engineer"
                  "Austin" a_resume three_jobs Hne eq_refl) Hconst).
Defined.

(** ** Properties of the other endpoints of jobsearch.py *)

(** X5. [parse_resume] answers with a body only when the file was read, the
    parser returned, and the parsed data has a [skills] entry that has a
    length; the body then carries the parsed data as the parser returned it.
    Parsed data without a [skills] key is answered with status 500 and the
    detail ['skills'], although the parser did not fail. *)
Theorem parse_resume_needs_skills
    (decode : list Byte.byte → string) (parser : string → result Api.pydict)
    (file : Api.UploadFile) :
  (∀ body, (Api.parse_resume decode parser file).2 = Api.Respond body →
     ∃ content d v n,
       Api.read file = Ok content ∧ parser (decode content) = Ok d
       ∧ d !! "skills" = Some v ∧ Api.py_len v = Ok n
       ∧ body = <["success" := Api.PBool true]>
                (<["parsed_data" := Api.PDict d]> ∅))
  ∧ (∀ content d,
       Api.read file = Ok content → parser (decode content) = Ok d →
       d !! "skills" = None →
       (Api.parse_resume decode parser file).2
       = Api.HTTPException 500 "'skills'").
Proof.
  split.
  - apply ApiFacts.parse_respond_inv.
  - apply ApiFacts.parse_missing_skills.
Qed.

Lemma parse_resume_needs_skills_witness :
  Api.read ApiExamples.a_file = Ok []
  ∧ ApiExamples.parser_without_skills (ApiExamples.decode_stub [])
    = Ok ApiExamples.parsed_without_skills
  ∧ ApiExamples.parsed_without_skills !! "skills" = None
  ∧ (Api.parse_resume ApiExamples.decode_stub ApiExamples.parser_without_skills
       ApiExamples.a_file).2
    = Api.HTTPException 500 "'skills'".
Proof.
  split; [reflexivity|]. split; [reflexivity|]. split; [reflexivity|].
  exact (proj2 (parse_resume_needs_skills ApiExamples.decode_stub
                  ApiExamples.parser_without_skills ApiExamples.a_file)
           [] ApiExamples.parsed_without_skills eq_refl eq_refl eq_refl).
Defined.

(** X6. In every body that [chat] answers, the [intent] reported is the one
    the reply was generated for, and it is [intent_data.get("intent",
    "general")]: the value under the key when the key is there (whatever the
    value, None included), "general" only when the key is missing; likewise
    the confidence is the value under [confidence], 0.0 when that key is
    missing. *)
Theorem chat_reports_the_intent_it_answered
    (predict : string → result Api.pydict)
    (generate : Api.pyobj → result Api.pyobj) (now user_message : string)
    (body : Api.pydict) :
  (Api.chat predict generate now user_message).2 = Api.Respond body →
  ∃ intent_data intent confidence reply,
    predict user_message = Ok intent_data
    ∧ body !! "intent" = Some intent
    ∧ body !! "confidence" = Some confidence
    ∧ body !! "response" = Some reply
    ∧ generate intent = Ok reply
    ∧ match intent_data !! "intent" with
      | Some v => intent = v
      | None => intent = Api.PStr "general"
      end
    ∧ match intent_data !! "confidence" with
      | Some v => confidence = v
      | None => confidence = Api.PFloat "0.0"
      end.
Proof.
  intros H.
  destruct (ApiFacts.chat_respond_inv _ _ _ _ _ H)
    as (d & reply & Hd & Hr & Hi & Hresp & Hc).
  exists d, (Api.dict_get d "intent" (Api.PStr "general")),
    (Api.dict_get d "confidence" (Api.PFloat "0.0")), reply.
  split_and!; [done..| |].
  - unfold Api.dict_get. by destruct (d !! "intent").
  - unfold Api.dict_get. by destruct (d !! "confidence").
Qed.

Lemma chat_reports_the_intent_it_answered_witness :
  ∃ body,
    (Api.chat ApiExamples.predict_no_intent ApiExamples.generate_stub
       a_timestamp "hello").2 = Api.Respond body
    ∧ ∃ intent reply,
        body !! "intent" = Some intent
        ∧ body !! "response" = Some reply
        ∧ ApiExamples.generate_stub intent = Ok reply.
Proof.
  eexists. split; [reflexivity|].
  destruct (chat_reports_the_intent_it_answered ApiExamples.predict_no_intent
              ApiExamples.generate_stub a_timestamp "hello" _ eq_refl)
    as (d & intent & conf & reply & _ & Hi & _ & Hr & Hg & _).
  exists intent, reply. exact (conj Hi (conj Hr Hg)).
Defined.

(** X7. [parse_resume], [chat] and [autofill_application] answer in one of
    two ways only: with a body flagged [success: True], having logged INFO
    lines only; or with status 500, having logged exactly one ERROR line,
    the last one, whose text ends with the detail sent to the client. *)
Theorem failures_become_500
    (decode : list Byte.byte → string) (parser : string → result Api.pydict)
    (predict : string → result Api.pydict)
    (generate : Api.pyobj → result Api.pyobj)
    (fill : Api.pydict → Api.pydict → result Api.pyobj)
    (str_of : Api.pyobj → string) (now : string) :
  (∀ file, Api.answers_or_500 (Api.parse_resume decode parser file))
  ∧ (∀ user_message,
       Api.answers_or_500 (Api.chat predict generate now user_message))
  ∧ (∀ resume_data job_data,
       Api.answers_or_500
         (Api.autofill_application fill str_of now resume_data job_data)).
Proof.
  split_and!.
  - apply ApiFacts.parse_answers.
  - apply ApiFacts.chat_answers.
  - apply ApiFacts.autofill_answers.
Qed.

(** Characters, not bytes: a message of 30 accented letters (60 bytes) is
    logged whole, and one of 60 is cut after the 50th letter (100 bytes). *)
Example accented_messages :
  Api.str_len (ApiExamples.times 30 "é") = 30
  ∧ String.length (ApiExamples.times 30 "é") = 60
  ∧ Api.slice_to 50 (ApiExamples.times 30 "é") = ApiExamples.times 30 "é"
  ∧ Api.slice_to 50 (ApiExamples.times 60 "é") = ApiExamples.times 50 "é".
Proof. split_and!; vm_compute; reflexivity. Qed.

(** X8. The first line [chat] logs is "Chatbot: " followed by
    [user_message[:50]]: a prefix of the user's message that holds
    min(50, len(user_message)) characters, counted as Python counts them
    (code points, not bytes), and that ends in front of a character, never
    inside one; this whether the request then succeeds or fails. A message
    of up to 50 characters is logged whole, however many bytes it takes. *)
Theorem chat_logs_a_bounded_prefix
    (predict : string → result Api.pydict)
    (generate : Api.pyobj → result Api.pyobj) (now user_message : string) :
  ∃ shown tail rest,
    (Api.chat predict generate now user_message).1
    = Api.LogEntry Api.INFO ("Chatbot: " +:+ shown) :: rest
    ∧ user_message = shown +:+ tail
    ∧ Api.str_len shown = Nat.min 50 (Api.str_len user_message)
    ∧ match tail with
      | EmptyString => True
      | String c _ => Api.is_continuation c = false
      end
    ∧ ((Api.str_len user_message <= 50)%nat → shown = user_message).
Proof.
  destruct (ApiFacts.chat_first_line predict generate now user_message)
    as [rest Hrest].
  destruct (ApiFacts.slice_to_prefix 50 user_message) as (tail & Htail & Hcut).
  exists (Api.slice_to 50 user_message), tail, rest.
  split_and!; [done|done|apply ApiFacts.slice_to_length|done|].
  apply ApiFacts.slice_to_short.
Qed.
